(** * The RAG core of [rag/rag_bedrock_real.py]: chunker and retriever

    A shallow embedding of [split_into_chunks], [create_vector_store] and
    [retrieve_relevant_chunks], and the properties of the specification that
    can be settled on them.

    Conventions of the embedding:
    - a Python [str] is a list of code points; the development covers the
      code points below 256, which is what [ascii] holds;
    - a Python [int] is a [Z]; [len] is [Z.of_nat (length _)];
    - the [print] calls of the source write to the console and have no part
      in the value returned; they are left out;
    - the weights that scikit-learn computes in double precision are real
      numbers here; the properties below use of them only which values are
      exactly 0 and how values compare, not what a value is. *)

From Stdlib Require Import List ZArith Lia Bool Ascii String Permutation.
From Stdlib Require Import Sorting.Sorted.
From Stdlib Require Import Reals Lra.
Import ListNotations.

Local Open Scope Z_scope.

(** ** Python strings *)

Definition str := list ascii.

Definition lit (s : string) : str := list_ascii_of_string s.

Definition len {A : Type} (l : list A) : Z := Z.of_nat (List.length l).

(** [str.isspace] on one code point below 256: the ASCII controls 9 to 13
    and 28 to 31, the space, NEL (133) and the no-break space (160). *)
Definition isspace (c : ascii) : bool :=
  let n := nat_of_ascii c in
  ((9 <=? n) && (n <=? 13))%nat || ((28 <=? n) && (n <=? 32))%nat
  || (n =? 133)%nat || (n =? 160)%nat.

Definition space : ascii := " "%char.

(** The maximal runs of characters outside a class [sep] of separators, in
    order.  [scan sep s] is the pair of the run that starts [s] (empty when
    [s] starts with a separator) and the runs after it. *)
Definition cons_word (w : str) (ws : list str) : list str :=
  match w with
  | [] => ws
  | _ :: _ => w :: ws
  end.

Fixpoint scan (sep : ascii -> bool) (s : str) : str * list str :=
  match s with
  | [] => ([], [])
  | c :: s' =>
      let (w, ws) := scan sep s' in
      if sep c then ([], cons_word w ws) else (c :: w, ws)
  end.

Definition fields (sep : ascii -> bool) (s : str) : list str :=
  let (w, ws) := scan sep s in cons_word w ws.

(** [str.split()] with no argument: the fields between runs of white
    space, none of them empty. *)
Definition split (s : str) : list str := fields isspace s.

(** [str.strip()] with no argument. *)
Fixpoint lstrip (s : str) : str :=
  match s with
  | [] => []
  | c :: s' => if isspace c then lstrip s' else s
  end.

Definition rstrip (s : str) : str := rev (lstrip (rev s)).

Definition strip (s : str) : str := rstrip (lstrip s).

(** [" ".join(l)] *)
Fixpoint join_spaces (l : list str) : str :=
  match l with
  | [] => []
  | [x] => x
  | x :: t => x ++ space :: join_spaces t
  end.

(** ** The chunker: [split_into_chunks] *)

(** The state of the loop is the pair [(chunks, current_chunk)]; one
    iteration of [for word in words] is [chunk_step]. *)
Definition chunk_step (chunk_size : Z) (st : list str * str) (word : str)
  : list str * str :=
  let (chunks, current_chunk) := st in
  if len current_chunk + len word + 1 <=? chunk_size
  then (chunks, current_chunk ++ word ++ [space])
  else (chunks ++ [strip current_chunk], word ++ [space]).

Definition chunk_finish (st : list str * str) : list str :=
  let (chunks, current_chunk) := st in
  match current_chunk with
  | [] => chunks
  | _ :: _ => chunks ++ [strip current_chunk]
  end.

Definition split_into_chunks (text : str) (chunk_size : Z) : list str :=
  let words := split text in
  chunk_finish (fold_left (chunk_step chunk_size) words ([], [])).

(** ** Outcomes of a call

    A call either returns a value or raises.  The source has no [raise]
    statement, so a call can only end in an exception of a library call or
    of a subscript:
    - [EmptyCorpus] is the [ValueError] ("empty vocabulary") of
      [fit_transform], under the name the specification gives to this
      failure;
    - [ValueError] is the one [cosine_similarity] raises on arrays whose
      shapes do not fit;
    - [IndexError] is a subscript out of range;
    - [InvalidArgument] is raised nowhere in the source; it is here for the
      properties of the specification that name it. *)
Inductive exn : Type :=
  | InvalidArgument
  | EmptyCorpus
  | ValueError
  | IndexError.

Inductive outcome (A : Type) : Type :=
  | Returned (a : A)
  | Raised (e : exn).

Arguments Returned {A} a.
Arguments Raised {A} e.

Definition bind {A B : Type} (m : outcome A) (f : A -> outcome B) : outcome B :=
  match m with
  | Returned a => f a
  | Raised e => Raised e
  end.

Notation "x <- m ;; k" := (bind m (fun x => k))
  (at level 61, m at next level, right associativity).

(** [Split] of the specification, as the source implements it: the body of
    [split_into_chunks] has no [raise] and none of its operations fails on a
    [str] and an [int], so every call returns. *)
Definition Split (text : str) (chunk_size : Z) : outcome (list str) :=
  Returned (split_into_chunks text chunk_size).

(** ** The vectoriser: [TfidfVectorizer()] with its default parameters

    Modelled from the spec: [TfidfVectorizer] is a class of scikit-learn,
    whose code is not part of the repository.  Section 4.2 of the
    specification asks for a term-frequency, inverse-document-frequency
    weight that is 0 for a term absent from a fragment, and a vocabulary
    frozen when the index is built; the formula below is the one the
    library documents for its defaults ([lowercase=True], token pattern
    [\b\w\w+\b], [smooth_idf=True], [norm='l2']). *)

(** [str.lower] on one code point below 256. *)
Definition lower (c : ascii) : ascii :=
  let n := nat_of_ascii c in
  if ((65 <=? n) && (n <=? 90)
      || ((192 <=? n) && (n <=? 222) && negb (n =? 215)))%nat
  then ascii_of_nat (n + 32)
  else c.

(** The class [\w] of the regular expressions on one code point below 256:
    letters, digits and numeric characters, and the underscore. *)
Definition isword (c : ascii) : bool :=
  let n := nat_of_ascii c in
  ((48 <=? n) && (n <=? 57) || (65 <=? n) && (n <=? 90) || (n =? 95)
   || (97 <=? n) && (n <=? 122)
   || (n =? 170) || (n =? 178) || (n =? 179) || (n =? 181) || (n =? 185)
   || (n =? 186) || (188 <=? n) && (n <=? 190)
   || (192 <=? n) && (n <=? 214) || (216 <=? n) && (n <=? 246)
   || (248 <=? n))%nat.

(** The analyser: lower the text, keep the runs of two word characters or
    more. *)
Definition analyze (doc : str) : list str :=
  filter (fun t => (2 <=? List.length t)%nat)
         (fields (fun c => negb (isword c)) (map lower doc)).

Definition str_eq_dec : forall a b : str, {a = b} + {a <> b} :=
  list_eq_dec ascii_dec.

Definition str_eqb (a b : str) : bool :=
  if str_eq_dec a b then true else false.

(** The order of code points, which sorts the vocabulary. *)
Fixpoint str_ltb (a b : str) : bool :=
  match a, b with
  | _, [] => false
  | [], _ :: _ => true
  | x :: a', y :: b' =>
      (nat_of_ascii x <? nat_of_ascii y)%nat
      || ((nat_of_ascii x =? nat_of_ascii y)%nat && str_ltb a' b')
  end.

Fixpoint vocab_insert (t : str) (v : list str) : list str :=
  match v with
  | [] => [t]
  | u :: v' =>
      if str_ltb t u then t :: v
      else if str_ltb u t then u :: vocab_insert t v'
      else v
  end.

Definition build_vocabulary (docs : list (list str)) : list str :=
  fold_left (fun v t => vocab_insert t v) (List.concat docs) [].

Definition term_count (t : str) (doc : list str) : nat :=
  count_occ str_eq_dec doc t.

Definition document_frequency (t : str) (docs : list (list str)) : nat :=
  List.length (filter (fun d => existsb (str_eqb t) d) docs).

Local Open Scope R_scope.

(** [idf(t) = ln ((1 + n) / (1 + df(t))) + 1] *)
Definition smooth_idf (n df : nat) : R :=
  ln ((1 + INR n) / (1 + INR df)) + 1.

Definition sum_squares (v : list R) : R :=
  fold_right Rplus 0 (map (fun x => x * x) v).

(** Row normalisation: a row of norm 0 is left as it is. *)
Definition normalize (v : list R) : list R :=
  let norm := sqrt (sum_squares v) in
  if Req_dec_T norm 0 then v else map (fun x => x / norm) v.

Definition dot (u v : list R) : R :=
  fold_right Rplus 0 (map (fun p => fst p * snd p) (combine u v)).

Record TfidfVectorizer : Type := {
  vocabulary_ : list str;
  idf_ : list R
}.

Definition tfidf_row (vec : TfidfVectorizer) (doc : list str) : list R :=
  normalize
    (map (fun p => INR (term_count (fst p) doc) * snd p)
         (combine (vocabulary_ vec) (idf_ vec))).

Definition fit (docs : list (list str)) : TfidfVectorizer :=
  let vocab := build_vocabulary docs in
  {| vocabulary_ := vocab;
     idf_ := map (fun t => smooth_idf (List.length docs)
                                      (document_frequency t docs)) vocab |}.

(** [fit_transform] raises [ValueError("empty vocabulary; ...")] when no
    term is left. *)
Definition fit_transform (raw : list str)
  : outcome (TfidfVectorizer * list (list R)) :=
  let docs := map analyze raw in
  match build_vocabulary docs with
  | [] => Raised EmptyCorpus
  | _ :: _ =>
      let vec := fit docs in
      Returned (vec, map (tfidf_row vec) docs)
  end.

(** [vectorizer.transform([query])]: the one row of the result.  A term of
    the query that the vocabulary does not hold is counted nowhere. *)
Definition transform (vec : TfidfVectorizer) (query : str) : list R :=
  tfidf_row vec (analyze query).

(** [cosine_similarity(X, Y)[0]] for a one-row [X].  Modelled from the
    spec: the function is scikit-learn's; section 4.2 defines it as the dot
    product over the product of the magnitudes, 0 for a vector of zeros.
    The library normalises both sides and multiplies, and raises
    [ValueError] when [Y] has no row or the numbers of columns differ. *)
Definition cosine_similarity (x : list R) (Y : list (list R))
  : outcome (list R) :=
  match Y with
  | [] => Raised ValueError
  | _ :: _ =>
      if forallb (fun y => (List.length y =? List.length x)%nat) Y
      then Returned (map (fun y => dot (normalize x) (normalize y)) Y)
      else Raised ValueError
  end.

(** [ndarray.argsort()]: the indices that sort the array in ascending
    order.  Modelled from the spec: the function is NumPy's.  The model is
    an insertion sort, which leaves equal elements in the order of their
    indices; NumPy's default sort is not stable, and may give equal
    elements another order.  But for the two scenario calls that rank an
    array of zeros, the properties use of [argsort] only that it lists
    every index once in ascending order of the values. *)
Fixpoint insert_asc (x : nat * R) (l : list (nat * R)) : list (nat * R) :=
  match l with
  | [] => [x]
  | y :: t => if Rle_dec (snd x) (snd y) then x :: l else y :: insert_asc x t
  end.

Definition argsort (a : list R) : list nat :=
  map fst (fold_right insert_asc [] (combine (seq 0 (List.length a)) a)).

Local Close Scope R_scope.

(** The slice [a[start:]] of a sequence, for any integer [start]. *)
Definition slice_from {A : Type} (start : Z) (a : list A) : list A :=
  let n := len a in
  let i := if start <? 0 then Z.max (start + n) 0 else Z.min start n in
  skipn (Z.to_nat i) a.

(** [[chunks[i] for i in indices]]; a subscript out of range raises
    [IndexError]. *)
Fixpoint subscripts (chunks : list str) (indices : list nat)
  : outcome (list str) :=
  match indices with
  | [] => Returned []
  | i :: rest =>
      match nth_error chunks i with
      | None => Raised IndexError
      | Some c => cs <- subscripts chunks rest ;; Returned (c :: cs)
      end
  end.

(** ** The retriever: [create_vector_store] and [retrieve_relevant_chunks] *)

Definition create_vector_store (chunks : list str)
  : outcome (TfidfVectorizer * list (list R) * list str) :=
  r <- fit_transform chunks ;;
  Returned (fst r, snd r, chunks).

Definition top_k_indices (similarities : list R) (k : Z) : list nat :=
  rev (slice_from (- k) (argsort similarities)).

Definition retrieve_relevant_chunks (query : str) (vectorizer : TfidfVectorizer)
    (vectors : list (list R)) (chunks : list str) (k : Z)
  : outcome (list str) :=
  let query_vector := transform vectorizer query in
  similarities <- cosine_similarity query_vector vectors ;;
  subscripts chunks (top_k_indices similarities k).

(** The operations of the specification on the source: [Build] is
    [create_vector_store], and [Query] unpacks the index it returned. *)
Definition Index : Type := (TfidfVectorizer * list (list R) * list str)%type.

Definition Build (fragments : list str) : outcome Index :=
  create_vector_store fragments.

Definition Query (index : Index) (query : str) (k : Z) : outcome (list str) :=
  let '(vectorizer, vectors, chunks) := index in
  retrieve_relevant_chunks query vectorizer vectors chunks k.

(** The similarities that [Query] ranks by. *)
Definition similarities_of (index : Index) (query : str) : outcome (list R) :=
  let '(vectorizer, vectors, _) := index in
  cosine_similarity (transform vectorizer query) vectors.

(** ** Predicates of the properties, and the scenario of the specification *)

(** A token: not empty, and free of separators. *)
Definition token (sep : ascii -> bool) (w : str) : Prop :=
  w <> [] /\ forallb (fun c => negb (sep c)) w = true.

(** The buffer is empty or ends with the separator that follows its last
    word. *)
Definition buffer_ok (cur : str) : Prop :=
  cur = [] \/ exists c, cur = c ++ [space].

(** A fragment is within the bound when it is no longer than [chunk_size],
    or is one token of the text that is longer than [chunk_size] alone. *)
Definition within (text : str) (chunk_size : Z) (f : str) : Prop :=
  len f <= chunk_size \/ (In f (split text) /\ chunk_size < len f).

Local Open Scope R_scope.

(** The order of an ascending, stable sort on (index, value) pairs: by
    value, and by index among equal values. *)
Definition asc (x y : nat * R) : Prop :=
  snd x < snd y \/ (snd x = snd y /\ (fst x < fst y)%nat).

(** The order of the indices that [argsort] returns: ascending values, and
    ascending indices among equal values. *)
Definition asc_at (a : list R) (i j : nat) : Prop :=
  nth i a 0 < nth j a 0 \/ (nth i a 0 = nth j a 0 /\ (i < j)%nat).

(** A vector of zeros. *)
Definition all_zero (v : list R) : Prop := Forall (fun x => x = 0) v.

Local Close Scope R_scope.

(** The tie-break of the specification, on the indices that a query
    returns: of two fragments with equal similarity, the one with the lower
    index comes first. *)
Definition lower_index_first (sims : list R) (indices : list nat) : Prop :=
  forall p q i j,
    nth_error indices p = Some i -> nth_error indices q = Some j ->
    nth i sims 0%R = nth j sims 0%R -> (i < j)%nat -> (p < q)%nat.

(** The end-to-end scenario of section 8 of the specification: its text,
    its three fragments, and the index that [Build] returns on them. *)
Definition scenario_text : str := lit "alpha beta gamma alpha beta alpha".

Definition scenario_fragments : list str :=
  [lit "alpha beta"; lit "gamma alpha"; lit "beta alpha"].

Definition scenario_index : Index :=
  (fit (map analyze scenario_fragments),
   map (tfidf_row (fit (map analyze scenario_fragments)))
       (map analyze scenario_fragments),
   scenario_fragments).

(** ** The retriever, for any order of equal elements

    NumPy's default [argsort] is not a stable sort: the order it gives to
    equal elements is its own.  What the library documents is that the
    result lists every index once, in ascending order of the values. *)
Definition ascending_argsort (sort : list R -> list nat) : Prop :=
  forall a,
    Permutation (sort a) (seq 0 (List.length a))
    /\ StronglySorted (fun i j => (nth i a 0 <= nth j a 0)%R) (sort a).

(** [retrieve_relevant_chunks] and [Query], over the function that
    [similarities.argsort()] calls. *)
Definition top_k_indices_with (sort : list R -> list nat)
    (similarities : list R) (k : Z) : list nat :=
  rev (slice_from (- k) (sort similarities)).

Definition retrieve_relevant_chunks_with (sort : list R -> list nat)
    (query : str) (vectorizer : TfidfVectorizer)
    (vectors : list (list R)) (chunks : list str) (k : Z)
  : outcome (list str) :=
  let query_vector := transform vectorizer query in
  similarities <- cosine_similarity query_vector vectors ;;
  subscripts chunks (top_k_indices_with sort similarities k).

Definition Query_with (sort : list R -> list nat) (index : Index)
    (query : str) (k : Z) : outcome (list str) :=
  let '(vectorizer, vectors, chunks) := index in
  retrieve_relevant_chunks_with sort query vectorizer vectors chunks k.

(** ** The shape of the fragments

    The buffer [current_chunk] after the words [us] were added to it: every
    word followed by a space. *)
Definition buffer (us : list str) : str :=
  List.concat (map (fun w => w ++ [space]) us).

(** The length of the buffer whose stripped content is the fragment [f]. *)
Definition buffer_len (f : str) : Z :=
  match f with
  | [] => 0
  | _ :: _ => len f + 1
  end.

(** A group of words fits when it is empty, is one word, or its buffer is
    no longer than [chunk_size]. *)
Definition group_ok (chunk_size : Z) (g : list str) : Prop :=
  g = [] \/ (exists w, g = [w]) \/ len (buffer g) <= chunk_size.

(** The first word of [g'] did not fit in the buffer of [g]. *)
Definition closed_by (chunk_size : Z) (g g' : list str) : Prop :=
  match g' with
  | [] => True
  | w :: _ => chunk_size < len (buffer g) + len w + 1
  end.

Fixpoint chain (chunk_size : Z) (gs : list (list str)) : Prop :=
  match gs with
  | g :: ((g' :: _) as rest) => closed_by chunk_size g g' /\ chain chunk_size rest
  | _ => True
  end.

(** The invariant of the loop, after the words [done]: the closed
    fragments and the buffer are groups of consecutive words. *)
Definition loop_inv (chunk_size : Z) (done : list str) (st : list str * str)
  : Prop :=
  exists gs us,
    fst st = map join_spaces gs
    /\ snd st = buffer us
    /\ List.concat gs ++ us = done
    /\ (us = [] -> gs = [])
    /\ Forall (fun g => g <> []) (tl gs)
    /\ Forall (group_ok chunk_size) (gs ++ [us])
    /\ chain chunk_size (gs ++ [us]).

(** ** From the pages to the chunks of a question: [extract_text_from_pdf]
    and [main] *)

Definition newline : ascii := ascii_of_nat 10.

(** [extract_text_from_pdf], on the texts that [page.extract_text()]
    returns for the pages of the reader, in order: the loop appends every
    page text and a line feed to [text].  Opening the file and reading the
    pages is the work of PyPDF2. *)
Definition extract_text_from_pdf (pages : list str) : str :=
  fold_left (fun text page => text ++ page ++ [newline]) pages [].

(** The default values of the parameters [chunk_size] and [k]. *)
Definition default_chunk_size : Z := 1000.
Definition default_k : Z := 3.

(** The path of the data through [main] for one question: the text of the
    pages is split with the default [chunk_size], the chunks are indexed,
    and the chunks for the question are retrieved with the default [k].
    The download before it and the call of the model after it are input
    and output. *)
Definition main_relevant_chunks (pages : list str) (question : str)
  : outcome (list str) :=
  let text := extract_text_from_pdf pages in
  let chunks := split_into_chunks text default_chunk_size in
  store <- create_vector_store chunks ;;
  let '(vectorizer, vectors, chunks) := store in
  retrieve_relevant_chunks question vectorizer vectors chunks default_k.

(** ** The product assistant: [context/bedrock_product_assistant.py] *)

(** A [dict] with [str] keys, in the order of insertion; a key is in it at
    most once. *)
Definition dict (V : Type) : Type := list (str * V).

(** [d.get(key, default)] *)
Fixpoint dict_get {V : Type} (d : dict V) (key : str) (default : V) : V :=
  match d with
  | [] => default
  | (k, v) :: d' => if str_eqb k key then v else dict_get d' key default
  end.

(** [sep.join(l)] *)
Fixpoint join (sep : str) (l : list str) : str :=
  match l with
  | [] => []
  | [x] => x
  | x :: t => x ++ sep ++ join sep t
  end.

Definition PRODUCT_DATABASE : dict (dict str) :=
  [ (lit "X123",
     [ (lit "Model", lit "X123");
       (lit "Name", lit "ProBook Ultra");
       (lit "Ports", lit "2x USB-C, 1x Thunderbolt 4, HDMI");
       (lit "Processor", lit "Intel Core i7-12700H");
       (lit "RAM", lit "16GB DDR5");
       (lit "Storage", lit "512GB NVMe SSD");
       (lit "Display", lit "15.6-inch 4K OLED");
       (lit "Graphics", lit "NVIDIA RTX 3060 6GB") ]);
    (lit "Y456",
     [ (lit "Model", lit "Y456");
       (lit "Name", lit "ThinBook Air");
       (lit "Ports", lit "2x USB-C, 1x USB-A, HDMI");
       (lit "Processor", lit "AMD Ryzen 7 5800U");
       (lit "RAM", lit "8GB DDR4");
       (lit "Storage", lit "256GB NVMe SSD");
       (lit "Display", lit "13.3-inch FHD IPS");
       (lit "Graphics", lit "AMD Radeon Graphics") ]);
    (lit "Z789",
     [ (lit "Model", lit "Z789");
       (lit "Name", lit "GameMaster Pro");
       (lit "Ports", lit "3x USB-A, 1x USB-C, 1x Thunderbolt 4, HDMI, Ethernet");
       (lit "Processor", lit "Intel Core i9-12900K");
       (lit "RAM", lit "32GB DDR5");
       (lit "Storage", lit "1TB NVMe SSD + 2TB HDD");
       (lit "Display", lit "17.3-inch QHD 165Hz");
       (lit "Graphics", lit "NVIDIA RTX 3080 12GB") ]) ].

Definition get_product_specs (product_id : str) : dict str :=
  dict_get PRODUCT_DATABASE product_id [].

(** One line of the formatted specifications: [f"{key}: {value}"]. *)
Definition spec_line (entry : str * str) : str :=
  fst entry ++ lit ": " ++ snd entry.

Definition format_specs_as_string (specs : dict str) : str :=
  match specs with
  | [] => lit "Product not found"
  | _ :: _ => join [newline] (map spec_line specs)
  end.

Definition generate_prompt (product_specs user_question : str) : str :=
  lit "You are a helpful product support assistant. " ++ [newline]
  ++ lit "The user is asking about a product with the following specifications:"
  ++ [newline]
  ++ product_specs ++ [newline]
  ++ [newline]
  ++ lit "User's question: '" ++ user_question ++ lit "'" ++ [newline]
  ++ [newline]
  ++ lit "Please answer the question accurately based on the product specifications provided."
  ++ [newline]
  ++ lit "If the information needed to answer the question is not in the specifications, "
  ++ [newline]
  ++ lit "politely state that you don't have that specific information."
  ++ [newline].

(** [answer_question], over the method [invoke_bedrock], which sends the
    prompt to the hosted model and returns its reply or raises. *)
Definition answer_question (invoke_bedrock : str -> outcome str)
    (product_id user_question : str) : outcome str :=
  let product_specs := get_product_specs product_id in
  match product_specs with
  | [] =>
      Returned (lit "I couldn't find any information about product "
                ++ product_id ++ lit ".")
  | _ :: _ =>
      let specs_string := format_specs_as_string product_specs in
      let prompt := generate_prompt specs_string user_question in
      invoke_bedrock prompt
  end.

(** [needle in hay], on strings. *)
Definition infix (needle hay : str) : Prop :=
  exists before after, hay = before ++ needle ++ after.

(** The lines of a text that are not empty: its fields between line
    feeds. *)
Definition is_newline (c : ascii) : bool := Ascii.eqb c newline.

Definition lines (s : str) : list str := fields is_newline s.

(** * Properties *)

(** ** The operations on small inputs *)

Example split_collapses_white_space :
  split (lit "  alpha   beta ") = [lit "alpha"; lit "beta"].
Proof. reflexivity. Qed.

Example chunks_of_a_long_token :
  split_into_chunks (lit "abcdefghijkl xy z") 5
  = [lit ""; lit "abcdefghijkl"; lit "xy z"].
Proof. reflexivity. Qed.

Example analyze_lowers_and_drops_short_runs :
  analyze (lit "Alpha, beta a x_1") = [lit "alpha"; lit "beta"; lit "x_1"].
Proof. reflexivity. Qed.

Example scenario_vocabulary :
  build_vocabulary (map analyze scenario_fragments)
  = [lit "alpha"; lit "beta"; lit "gamma"].
Proof. reflexivity. Qed.

Example slices_of_three :
  slice_from (- 2) [0; 1; 2]%nat = [1; 2]%nat
  /\ slice_from (- 5) [0; 1; 2]%nat = [0; 1; 2]%nat
  /\ slice_from (- 0) [0; 1; 2]%nat = [0; 1; 2]%nat
  /\ slice_from (- (-1)) [0; 1; 2]%nat = [1; 2]%nat.
Proof. repeat split. Qed.

(** ** Fields of a string *)

Section Fields.
Variable sep : ascii -> bool.

Lemma cons_word_app w ws ws' :
  cons_word w ws ++ ws' = cons_word w (ws ++ ws').
Proof. destruct w; reflexivity. Qed.

Lemma scan_app_sep a c b :
  sep c = true ->
  scan sep (a ++ c :: b)
  = (fst (scan sep a), snd (scan sep a) ++ fields sep b).
Proof.
  intros Hc. induction a as [|x a IH]; simpl.
  - unfold fields. destruct (scan sep b) as [w ws]. now rewrite Hc.
  - rewrite IH. destruct (scan sep a) as [w ws]; simpl.
    destruct (sep x); simpl; [|reflexivity].
    now rewrite cons_word_app.
Qed.

Lemma fields_app_sep a c b :
  sep c = true -> fields sep (a ++ c :: b) = fields sep a ++ fields sep b.
Proof.
  intros Hc. unfold fields at 1 2. rewrite (scan_app_sep a c b Hc).
  destruct (scan sep a) as [w ws]; simpl. now rewrite cons_word_app.
Qed.

Lemma fields_snoc_sep a c :
  sep c = true -> fields sep (a ++ [c]) = fields sep a.
Proof.
  intros Hc. rewrite (fields_app_sep a c [] Hc). apply app_nil_r.
Qed.

Lemma fields_cons_sep c s :
  sep c = true -> fields sep (c :: s) = fields sep s.
Proof. intros Hc. apply (fields_app_sep [] c s Hc). Qed.

Lemma scan_free w :
  forallb (fun c => negb (sep c)) w = true -> scan sep w = (w, []).
Proof.
  induction w as [|c w IH]; simpl; [reflexivity|].
  intros H. apply andb_prop in H as [Hc Hw]. rewrite (IH Hw).
  apply negb_true_iff in Hc. now rewrite Hc.
Qed.

Lemma fields_token w : token sep w -> fields sep w = [w].
Proof.
  intros [Hne Hw]. unfold fields. rewrite (scan_free w Hw).
  destruct w; [contradiction|reflexivity].
Qed.

(** What [scan] returns: a separator-free head, and tokens. *)
Lemma scan_tokens s :
  forallb (fun c => negb (sep c)) (fst (scan sep s)) = true
  /\ Forall (token sep) (snd (scan sep s)).
Proof.
  induction s as [|c s [IHw IHws]]; simpl; [now split|].
  destruct (scan sep s) as [w ws]; simpl in *.
  destruct (sep c) eqn:Hc; simpl.
  - split; [reflexivity|].
    destruct w as [|x w]; simpl; [assumption|].
    constructor; [|assumption]. split; [discriminate|assumption].
  - apply negb_true_iff in Hc. rewrite Hc. simpl. split; assumption.
Qed.

Lemma fields_tokens s : Forall (token sep) (fields sep s).
Proof.
  unfold fields. destruct (scan_tokens s) as [Hw Hws].
  destruct (scan sep s) as [w ws]; simpl in *.
  destruct w as [|x w]; simpl; [assumption|].
  constructor; [|assumption]. split; [discriminate|assumption].
Qed.

Lemma fields_all_sep s : forallb sep s = true -> fields sep s = [].
Proof.
  induction s as [|c s IH]; simpl; [reflexivity|].
  intros H. apply andb_prop in H as [Hc Hs].
  rewrite (fields_cons_sep c s Hc). auto.
Qed.

Lemma fields_app_all_sep a b :
  forallb sep b = true -> fields sep (a ++ b) = fields sep a.
Proof.
  intros Hb. destruct b as [|c b]; [now rewrite app_nil_r|].
  simpl in Hb. apply andb_prop in Hb as [Hc Hb].
  rewrite (fields_app_sep a c b Hc), (fields_all_sep b Hb).
  apply app_nil_r.
Qed.
End Fields.


(** ** [strip] *)

Lemma forallb_rev {A : Type} (p : A -> bool) (l : list A) :
  forallb p (rev l) = forallb p l.
Proof.
  induction l as [|x l IH]; simpl; [reflexivity|].
  rewrite forallb_app, IH. simpl. rewrite andb_true_r. apply andb_comm.
Qed.

Lemma isspace_space : isspace space = true.
Proof. reflexivity. Qed.

Lemma lstrip_decomp s :
  exists ws, forallb isspace ws = true /\ s = ws ++ lstrip s.
Proof.
  induction s as [|c s (ws & Hws & Hs)]; simpl.
  - now exists [].
  - destruct (isspace c) eqn:Hc.
    + exists (c :: ws). simpl. rewrite Hc, Hws. split; [reflexivity|].
      now f_equal.
    + now exists [].
Qed.

Lemma rstrip_decomp s :
  exists ws, forallb isspace ws = true /\ s = rstrip s ++ ws.
Proof.
  destruct (lstrip_decomp (rev s)) as (ws & Hws & Hs).
  exists (rev ws). split; [now rewrite forallb_rev|].
  unfold rstrip. rewrite <- rev_app_distr, <- Hs. symmetry. apply rev_involutive.
Qed.

Lemma strip_decomp s :
  exists ws1 ws2,
    forallb isspace ws1 = true /\ forallb isspace ws2 = true
    /\ s = ws1 ++ strip s ++ ws2.
Proof.
  destruct (lstrip_decomp s) as (ws1 & H1 & Hs).
  destruct (rstrip_decomp (lstrip s)) as (ws2 & H2 & Hl).
  exists ws1, ws2. repeat split; [assumption..|].
  unfold strip. now rewrite <- Hl.
Qed.

Lemma fields_all_sep_app sep a b :
  forallb sep a = true -> fields sep (a ++ b) = fields sep b.
Proof.
  induction a as [|c a IH]; simpl; [reflexivity|].
  intros H. apply andb_prop in H as [Hc Ha].
  rewrite (fields_cons_sep sep c (a ++ b) Hc). auto.
Qed.

Lemma split_strip s : split (strip s) = split s.
Proof.
  destruct (strip_decomp s) as (ws1 & ws2 & H1 & H2 & Hs).
  unfold split. rewrite Hs at 2.
  now rewrite (fields_all_sep_app _ _ _ H1), (fields_app_all_sep _ _ _ H2).
Qed.

Lemma len_strip s : len (strip s) <= len s.
Proof.
  destruct (strip_decomp s) as (ws1 & ws2 & _ & _ & Hs).
  unfold len. rewrite Hs at 2. rewrite !length_app. lia.
Qed.

Lemma lstrip_free w :
  forallb (fun c => negb (isspace c)) w = true -> lstrip w = w.
Proof.
  destruct w as [|c w]; simpl; [reflexivity|].
  intros H. apply andb_prop in H as [Hc _].
  apply negb_true_iff in Hc. now rewrite Hc.
Qed.

Lemma strip_token_space w :
  token isspace w -> strip (w ++ [space]) = w.
Proof.
  intros [Hne Hw]. unfold strip, rstrip.
  assert (Hl : lstrip (w ++ [space]) = w ++ [space]).
  { destruct w as [|c w]; [contradiction|]. simpl in *.
    apply andb_prop in Hw as [Hc _]. apply negb_true_iff in Hc.
    now rewrite Hc. }
  rewrite Hl, rev_app_distr. simpl.
  rewrite lstrip_free by now rewrite forallb_rev.
  apply rev_involutive.
Qed.

Lemma split_token_space w :
  token isspace w -> split (w ++ [space]) = [w].
Proof.
  intros Hw. unfold split.
  rewrite (fields_snoc_sep _ _ _ isspace_space). now apply fields_token.
Qed.

Lemma split_tokens s : Forall (token isspace) (split s).
Proof. apply fields_tokens. Qed.

(** ** The loop of [split_into_chunks] *)

Lemma chunk_step_buffer chunk_size st w :
  buffer_ok (snd (chunk_step chunk_size st w)).
Proof.
  destruct st as [chunks cur]. unfold chunk_step.
  destruct (len cur + len w + 1 <=? chunk_size); simpl; right.
  - exists (cur ++ w). now rewrite <- app_assoc.
  - now exists w.
Qed.

Lemma split_buffer_word cur w :
  buffer_ok cur -> token isspace w ->
  split (cur ++ w ++ [space]) = split cur ++ [w].
Proof.
  intros [->|[c ->]] Hw; simpl.
  - now apply split_token_space.
  - unfold split. rewrite <- app_assoc. simpl.
    rewrite (fields_app_sep _ c space _ isspace_space).
    rewrite (fields_snoc_sep _ c space isspace_space).
    f_equal. now apply split_token_space.
Qed.

Lemma chunk_step_tokens chunk_size chunks cur w :
  buffer_ok cur -> token isspace w ->
  let st := chunk_step chunk_size (chunks, cur) w in
  flat_map split (fst st) ++ split (snd st)
  = (flat_map split chunks ++ split cur) ++ [w].
Proof.
  intros Hcur Hw. unfold chunk_step.
  destruct (len cur + len w + 1 <=? chunk_size); simpl.
  - rewrite (split_buffer_word cur w Hcur Hw). now rewrite app_assoc.
  - rewrite flat_map_app. simpl. rewrite app_nil_r, split_strip.
    f_equal. now apply split_token_space.
Qed.

Lemma chunk_loop_tokens chunk_size ws :
  Forall (token isspace) ws ->
  forall st, buffer_ok (snd st) ->
  let st' := fold_left (chunk_step chunk_size) ws st in
  flat_map split (fst st') ++ split (snd st')
  = (flat_map split (fst st) ++ split (snd st)) ++ ws
  /\ buffer_ok (snd st').
Proof.
  induction 1 as [|w ws Hw _ IH]; intros st Hst; simpl.
  - now rewrite app_nil_r.
  - destruct (IH (chunk_step chunk_size st w)
                 (chunk_step_buffer chunk_size st w)) as [E B].
    split; [|exact B]. rewrite E. destruct st as [chunks cur].
    rewrite (chunk_step_tokens chunk_size chunks cur w Hst Hw).
    now rewrite <- app_assoc.
Qed.

Lemma chunk_finish_tokens st :
  flat_map split (chunk_finish st) = flat_map split (fst st) ++ split (snd st).
Proof.
  destruct st as [chunks [|c cur]]; simpl.
  - now rewrite app_nil_r.
  - rewrite flat_map_app. simpl. now rewrite app_nil_r, split_strip.
Qed.

Lemma split_join_spaces l : split (join_spaces l) = flat_map split l.
Proof.
  induction l as [|x [|y l] IH].
  - reflexivity.
  - simpl. now rewrite app_nil_r.
  - change (join_spaces (x :: y :: l)) with (x ++ space :: join_spaces (y :: l)).
    unfold split at 1. rewrite (fields_app_sep _ x space _ isspace_space).
    fold (split x) (split (join_spaces (y :: l))). now rewrite IH.
Qed.

Lemma split_into_chunks_tokens text chunk_size :
  flat_map split (split_into_chunks text chunk_size) = split text.
Proof.
  unfold split_into_chunks. rewrite chunk_finish_tokens.
  destruct (chunk_loop_tokens chunk_size (split text) (split_tokens text)
              ([], [])) as [E _]; [now left|].
  exact E.
Qed.

Lemma chunk_step_within text chunk_size chunks cur w :
  In w (split text) -> token isspace w ->
  Forall (within text chunk_size) chunks ->
  within text chunk_size (strip cur) ->
  let st := chunk_step chunk_size (chunks, cur) w in
  Forall (within text chunk_size) (fst st)
  /\ within text chunk_size (strip (snd st)).
Proof.
  intros Hin Hw Hchunks Hcur. unfold chunk_step.
  destruct (len cur + len w + 1 <=? chunk_size) eqn:Hfit; simpl.
  - split; [assumption|]. left.
    apply Z.leb_le in Hfit.
    pose proof (len_strip (cur ++ w ++ [space])) as Hs.
    unfold len in *. rewrite !length_app in Hs. simpl in Hs. lia.
  - split.
    + apply Forall_app. split; [assumption|]. now constructor.
    + rewrite (strip_token_space w Hw).
      destruct (Z_le_gt_dec (len w) chunk_size) as [Hle|Hgt].
      * now left.
      * right. split; [assumption|lia].
Qed.

Lemma chunk_loop_within text chunk_size ws :
  incl ws (split text) ->
  forall st,
    Forall (within text chunk_size) (fst st) ->
    within text chunk_size (strip (snd st)) ->
    let st' := fold_left (chunk_step chunk_size) ws st in
    Forall (within text chunk_size) (fst st')
    /\ within text chunk_size (strip (snd st')).
Proof.
  induction ws as [|w ws IH]; intros Hincl st Hchunks Hcur; simpl.
  - now split.
  - assert (Hin : In w (split text)) by (apply Hincl; now left).
    assert (Hw : token isspace w).
    { pose proof (split_tokens text) as Ht.
      rewrite Forall_forall in Ht. now apply Ht. }
    destruct st as [chunks cur].
    destruct (chunk_step_within text chunk_size chunks cur w Hin Hw Hchunks Hcur)
      as [Hc' Hb'].
    apply IH; [|assumption..].
    intros x Hx. apply Hincl. now right.
Qed.

Lemma chunk_loop_prefix chunk_size ws :
  forall st, exists more,
    fst (fold_left (chunk_step chunk_size) ws st) = fst st ++ more.
Proof.
  induction ws as [|w ws IH]; intros st; simpl.
  - exists []. now rewrite app_nil_r.
  - destruct (IH (chunk_step chunk_size st w)) as [more E].
    rewrite E. destruct st as [chunks cur]. unfold chunk_step.
    destruct (len cur + len w + 1 <=? chunk_size); simpl.
    + now exists more.
    + exists (strip cur :: more). now rewrite <- app_assoc.
Qed.

Lemma chunk_finish_prefix st :
  exists more, chunk_finish st = fst st ++ more.
Proof.
  destruct st as [chunks [|c cur]]; simpl.
  - exists []. now rewrite app_nil_r.
  - now exists [strip (c :: cur)].
Qed.

(** With a [chunk_size] that no buffer fits, every word closes the buffer
    before it. *)
Lemma chunk_loop_nonpositive chunk_size ws :
  chunk_size <= 0 -> Forall (token isspace) ws -> ws <> [] ->
  forall chunks cur,
    chunk_finish (fold_left (chunk_step chunk_size) ws (chunks, cur))
    = chunks ++ strip cur :: ws.
Proof.
  intros Hcs. induction 1 as [|w ws Hw Hws IH]; intros Hne chunks cur.
  - contradiction.
  - cbn [fold_left].
    change (chunk_step chunk_size (chunks, cur) w)
      with (if len cur + len w + 1 <=? chunk_size
            then (chunks, cur ++ w ++ [space])
            else (chunks ++ [strip cur], w ++ [space])).
    assert (Hfit : (len cur + len w + 1 <=? chunk_size) = false).
    { apply Z.leb_gt. unfold len. lia. }
    rewrite Hfit. destruct ws as [|w' ws].
    + simpl. destruct (w ++ [space]) eqn:E.
      * now destruct w.
      * rewrite <- E, (strip_token_space w Hw). now rewrite <- app_assoc.
    + rewrite IH by discriminate.
      rewrite (strip_token_space w Hw). now rewrite <- app_assoc.
Qed.

(** ** The chunker against the specification *)

(** C1, as the specification states it, does not hold: on the text of the
    end-to-end scenario with [chunk_size = 11], [Split] does not return the
    three fragments "alpha beta", "gamma alpha", "beta alpha". *)
Lemma split_scenario_not_three_fragments :
  Split scenario_text 11
  <> Returned [lit "alpha beta"; lit "gamma alpha"; lit "beta alpha"].
Proof. vm_compute. discriminate. Qed.

(** C1, amended: on the text of the end-to-end scenario with
    [chunk_size = 11], [Split] returns the four fragments "alpha beta",
    "gamma", "alpha beta", "alpha".  The buffer holds the separator after
    its last word, so "gamma " and "alpha" count 6 + 5 + 1 = 12 > 11. *)
Theorem split_scenario_four_fragments :
  Split scenario_text 11
  = Returned [lit "alpha beta"; lit "gamma"; lit "alpha beta"; lit "alpha"].
Proof. reflexivity. Qed.

(** C4, as the specification states it, does not hold: with
    [chunk_size = 0], [Split] raises nothing and returns fragments. *)
Lemma split_zero_size_returns :
  Split (lit "ab cd") 0 <> Raised InvalidArgument
  /\ Split (lit "ab cd") 0 = Returned [lit ""; lit "ab"; lit "cd"].
Proof. split; [discriminate|reflexivity]. Qed.

(** C4, amended: for every text, [Split] with [chunk_size <= 0] does not
    fail; it returns no fragment for a text without a token, and otherwise
    an empty fragment followed by every token of the text as a fragment of
    its own. *)
Theorem split_nonpositive_size text chunk_size :
  chunk_size <= 0 ->
  Split text chunk_size
  = Returned (match split text with
              | [] => []
              | w :: ws => [] :: w :: ws
              end).
Proof.
  intros Hcs. unfold Split, split_into_chunks. f_equal.
  destruct (split text) as [|w ws] eqn:E; [reflexivity|].
  rewrite (chunk_loop_nonpositive chunk_size (w :: ws) Hcs).
  - reflexivity.
  - rewrite <- E. apply split_tokens.
  - discriminate.
Qed.

Lemma split_nonpositive_size_witness :
  -3 <= 0
  /\ Split (lit "ab cd") (-3) = Returned [lit ""; lit "ab"; lit "cd"].
Proof.
  split; [lia|].
  apply (split_nonpositive_size (lit "ab cd") (-3)). lia.
Defined.

(** C5: for every non-empty text and every [chunk_size > 0], every fragment
    that [Split] returns has at most [chunk_size] characters, unless it is a
    single token of the text that is longer than [chunk_size]. *)
Theorem chunk_size_bound text chunk_size :
  text <> [] -> 0 < chunk_size ->
  exists fragments,
    Split text chunk_size = Returned fragments
    /\ Forall (within text chunk_size) fragments.
Proof.
  intros _ Hcs. exists (split_into_chunks text chunk_size).
  split; [reflexivity|]. unfold split_into_chunks.
  destruct (chunk_loop_within text chunk_size (split text) (incl_refl _)
              ([], [])) as [Hchunks Hcur].
  - constructor.
  - left. simpl. unfold len. simpl. lia.
  - destruct (fold_left (chunk_step chunk_size) (split text) ([], []))
      as [chunks [|c cur]]; simpl in *; [assumption|].
    apply Forall_app. split; [assumption|]. now constructor.
Qed.

Lemma chunk_size_bound_witness :
  scenario_text <> [] /\ 0 < 11
  /\ exists fragments,
       Split scenario_text 11 = Returned fragments
       /\ Forall (within scenario_text 11) fragments.
Proof.
  split; [discriminate|]. split; [lia|].
  apply (chunk_size_bound scenario_text 11); [discriminate|lia].
Defined.

(** C6: for every text and every [chunk_size > 0], the fragments that
    [Split] returns, joined with single spaces, have the tokens of the text,
    in the same order. *)
Theorem reconstructibility text chunk_size :
  0 < chunk_size ->
  exists fragments,
    Split text chunk_size = Returned fragments
    /\ split (join_spaces fragments) = split text.
Proof.
  intros _. exists (split_into_chunks text chunk_size).
  split; [reflexivity|].
  rewrite split_join_spaces. apply split_into_chunks_tokens.
Qed.

Lemma reconstructibility_witness :
  0 < 7
  /\ exists fragments,
       Split (lit " ab  cdefghijk l ") 7 = Returned fragments
       /\ split (join_spaces fragments) = split (lit " ab  cdefghijk l ").
Proof.
  split; [lia|]. apply (reconstructibility (lit " ab  cdefghijk l ") 7). lia.
Defined.

(** C10: for every [chunk_size > 0] and every text whose first token has at
    least [chunk_size] characters, the first fragment that [Split] returns
    is the empty string. *)
Theorem empty_fragment_before_long_first_token text chunk_size w ws :
  0 < chunk_size -> split text = w :: ws -> chunk_size <= len w ->
  exists rest, Split text chunk_size = Returned ([] :: rest).
Proof.
  intros _ Hsplit Hlong. unfold Split, split_into_chunks. rewrite Hsplit.
  cbn [fold_left].
  change (chunk_step chunk_size ([], []) w)
    with (if len (@nil ascii) + len w + 1 <=? chunk_size
          then ([], [] ++ w ++ [space])
          else ([] ++ [strip []], w ++ [space])).
  assert (Hfit : (len (@nil ascii) + len w + 1 <=? chunk_size) = false).
  { apply Z.leb_gt. unfold len at 1. simpl. lia. }
  rewrite Hfit.
  destruct (chunk_finish_prefix
              (fold_left (chunk_step chunk_size) ws
                 ([] ++ [strip []], w ++ [space]))) as [more1 E1].
  destruct (chunk_loop_prefix chunk_size ws ([] ++ [strip []], w ++ [space]))
    as [more2 E2].
  rewrite E1, E2. simpl. now exists (more2 ++ more1).
Qed.

Lemma empty_fragment_before_long_first_token_witness :
  0 < 4 /\ split (lit "alpha be") = [lit "alpha"; lit "be"]
  /\ 4 <= len (lit "alpha")
  /\ exists rest, Split (lit "alpha be") 4 = Returned ([] :: rest).
Proof.
  split; [lia|]. split; [reflexivity|]. split; [vm_compute; discriminate|].
  apply (empty_fragment_before_long_first_token
           (lit "alpha be") 4 (lit "alpha") [lit "be"]);
    [lia|reflexivity|vm_compute; discriminate].
Defined.

(** ** [argsort] *)

Local Open Scope R_scope.

Lemma insert_asc_perm x l : Permutation (insert_asc x l) (x :: l).
Proof.
  induction l as [|y t IH]; simpl; [reflexivity|].
  destruct (Rle_dec (snd x) (snd y)); [reflexivity|].
  rewrite IH. apply perm_swap.
Qed.

Lemma sort_asc_perm l : Permutation (fold_right insert_asc [] l) l.
Proof.
  induction l as [|x l IH]; simpl; [reflexivity|].
  rewrite insert_asc_perm. now constructor.
Qed.

Lemma insert_asc_sorted x l :
  StronglySorted asc l ->
  Forall (fun y => (fst x < fst y)%nat) l ->
  StronglySorted asc (insert_asc x l).
Proof.
  induction 1 as [|y t Ht IH Hy]; intros Hx; simpl.
  - repeat constructor.
  - inversion Hx as [|? ? Hxy Hxt]; subst.
    destruct (Rle_dec (snd x) (snd y)) as [Hle|Hgt].
    + constructor; [now constructor|].
      constructor.
      * destruct Hle as [Hlt|Heq]; [now left|right; now split].
      * rewrite Forall_forall in Hy, Hxt |- *. intros z Hz.
        specialize (Hy z Hz). specialize (Hxt z Hz).
        destruct Hy as [Hyz|[Hyz _]]; [left; lra|].
        destruct Hle as [Hlt|Heq]; [left; lra|right; split; [lra|assumption]].
    + constructor; [now apply IH|].
      rewrite Forall_forall in Hy |- *. intros z Hz.
      apply (Permutation_in _ (insert_asc_perm x t)) in Hz.
      destruct Hz as [<-|Hz]; [left; lra|now apply Hy].
Qed.

Lemma combine_seq_lower {A : Type} (a : list A) s :
  Forall (fun y => (s <= fst y)%nat) (combine (seq s (List.length a)) a).
Proof.
  revert s. induction a as [|v a IH]; intros s; simpl; constructor.
  - simpl. lia.
  - eapply Forall_impl; [|apply (IH (S s))]. simpl. intros; lia.
Qed.

Lemma sort_asc_sorted (a : list R) s :
  StronglySorted asc
    (fold_right insert_asc [] (combine (seq s (List.length a)) a)).
Proof.
  revert s. induction a as [|v a IH]; intros s; simpl; [constructor|].
  apply insert_asc_sorted; [apply IH|].
  rewrite Forall_forall. intros y Hy.
  apply (Permutation_in _ (sort_asc_perm _)) in Hy.
  pose proof (combine_seq_lower a (S s)) as Hl.
  rewrite Forall_forall in Hl. specialize (Hl y Hy). simpl. lia.
Qed.

(** Every pair carries the value at its index. *)
Lemma combine_seq_value (a : list R) s :
  Forall (fun y => snd y = nth (fst y - s) a 0)
         (combine (seq s (List.length a)) a).
Proof.
  revert s. induction a as [|v a IH]; intros s; simpl; constructor.
  - simpl. now rewrite Nat.sub_diag.
  - pose proof (combine_seq_lower a (S s)) as Hl.
    pose proof (IH (S s)) as Hv.
    rewrite Forall_forall in Hl, Hv |- *. intros y Hy.
    specialize (Hl y Hy). specialize (Hv y Hy). rewrite Hv.
    replace (fst y - s)%nat with (S (fst y - S s)) by lia. reflexivity.
Qed.

Lemma map_fst_combine_seq {A : Type} (a : list A) s :
  map fst (combine (seq s (List.length a)) a) = seq s (List.length a).
Proof.
  revert s. induction a as [|v a IH]; intros s; simpl; [reflexivity|].
  now rewrite IH.
Qed.

Lemma argsort_perm (a : list R) :
  Permutation (argsort a) (seq 0 (List.length a)).
Proof.
  unfold argsort. rewrite <- (map_fst_combine_seq a 0) at 2.
  apply Permutation_map, sort_asc_perm.
Qed.

Lemma argsort_length (a : list R) : List.length (argsort a) = List.length a.
Proof.
  rewrite (Permutation_length (argsort_perm a)). apply length_seq.
Qed.

Lemma argsort_in_range (a : list R) i :
  In i (argsort a) -> (i < List.length a)%nat.
Proof.
  intros Hi. apply (Permutation_in _ (argsort_perm a)) in Hi.
  apply in_seq in Hi. lia.
Qed.

Lemma StronglySorted_map_fst (a : list R) (l : list (nat * R)) :
  Forall (fun y => snd y = nth (fst y) a 0) l ->
  StronglySorted asc l -> StronglySorted (asc_at a) (map fst l).
Proof.
  intros Hv. induction 1 as [|y t Ht IH Hy]; simpl; constructor.
  - apply IH. now inversion Hv.
  - inversion Hv as [|? ? Hvy Hvt]; subst.
    rewrite Forall_forall in Hy, Hvt. apply Forall_forall.
    intros j Hj. apply in_map_iff in Hj as (z & <- & Hz).
    specialize (Hy z Hz). specialize (Hvt z Hz).
    unfold asc_at. rewrite <- Hvy, <- Hvt. exact Hy.
Qed.

Lemma argsort_sorted (a : list R) : StronglySorted (asc_at a) (argsort a).
Proof.
  unfold argsort. apply StronglySorted_map_fst; [|apply sort_asc_sorted].
  pose proof (combine_seq_value a 0) as Hv.
  rewrite Forall_forall in Hv |- *. intros y Hy.
  apply (Permutation_in _ (sort_asc_perm _)) in Hy.
  rewrite (Hv y Hy). now rewrite Nat.sub_0_r.
Qed.

(** On an array of equal values, [argsort] is the identity. *)
Lemma insert_asc_least x l :
  Forall (fun y => snd x <= snd y) l -> insert_asc x l = x :: l.
Proof.
  destruct l as [|y t]; simpl; [reflexivity|].
  intros H. inversion H; subst.
  destruct (Rle_dec (snd x) (snd y)); [reflexivity|contradiction].
Qed.

Lemma sort_asc_constant (c : R) (l : list (nat * R)) :
  Forall (fun y => snd y = c) l -> fold_right insert_asc [] l = l.
Proof.
  induction 1 as [|y t Hy Ht IH]; simpl; [reflexivity|].
  rewrite IH. apply insert_asc_least.
  eapply Forall_impl; [|exact Ht]. simpl. intros z Hz. lra.
Qed.

Lemma argsort_constant (c : R) (a : list R) :
  Forall (fun v => v = c) a -> argsort a = seq 0 (List.length a).
Proof.
  intros Ha. unfold argsort. rewrite (sort_asc_constant c).
  - apply map_fst_combine_seq.
  - rewrite Forall_forall in Ha |- *. intros [i v] Hy.
    apply in_combine_r in Hy. now apply Ha.
Qed.

Local Close Scope R_scope.

(** ** Slices, reversal and subscripts *)

Lemma slice_from_suffix {A : Type} (start : Z) (a : list A) :
  exists pre, a = pre ++ slice_from start a.
Proof.
  unfold slice_from.
  set (i := Z.to_nat _). exists (firstn i a). symmetry. apply firstn_skipn.
Qed.

Lemma slice_from_length {A : Type} (k : Z) (a : list A) :
  0 < k -> len (slice_from (- k) a) = Z.min k (len a).
Proof.
  intros Hk. unfold slice_from, len.
  assert (E : (- k <? 0) = true) by (apply Z.ltb_lt; lia).
  rewrite E, length_skipn. lia.
Qed.

Lemma slice_from_all {A : Type} (k : Z) (a : list A) :
  len a <= k -> slice_from (- k) a = a.
Proof.
  intros Hk. unfold slice_from, len in *.
  destruct (- k <? 0) eqn:E.
  - replace (Z.to_nat _) with 0%nat by lia. reflexivity.
  - apply Z.ltb_ge in E. replace (Z.to_nat _) with 0%nat by lia. reflexivity.
Qed.

Lemma slice_from_zero {A : Type} (a : list A) : slice_from (- 0) a = a.
Proof.
  unfold slice_from. simpl. replace (Z.to_nat _) with 0%nat by (unfold len; lia).
  reflexivity.
Qed.

Lemma slice_from_negative_length {A : Type} (k : Z) (a : list A) :
  k < 0 -> len (slice_from (- k) a) = Z.max (len a + k) 0.
Proof.
  intros Hk. unfold slice_from, len.
  assert (E : (- k <? 0) = false) by (apply Z.ltb_ge; lia).
  rewrite E, length_skipn. lia.
Qed.

Lemma StronglySorted_suffix {A : Type} (R : A -> A -> Prop) (l1 l2 : list A) :
  StronglySorted R (l1 ++ l2) -> StronglySorted R l2.
Proof.
  induction l1 as [|x l1 IH]; simpl; [auto|].
  intros H. inversion H; subst. auto.
Qed.

Lemma StronglySorted_snoc {A : Type} (R : A -> A -> Prop) (l : list A) x :
  StronglySorted R l -> Forall (fun y => R y x) l ->
  StronglySorted R (l ++ [x]).
Proof.
  induction 1 as [|y t Ht IH Hy]; intros Hx; simpl.
  - repeat constructor.
  - inversion Hx; subst. constructor; [now apply IH|].
    apply Forall_app. split; [assumption|now constructor].
Qed.

Lemma StronglySorted_rev {A : Type} (R : A -> A -> Prop) (l : list A) :
  StronglySorted R l -> StronglySorted (fun x y => R y x) (rev l).
Proof.
  induction 1 as [|x t Ht IH Hx]; simpl; [constructor|].
  apply StronglySorted_snoc; [assumption|].
  rewrite Forall_forall in Hx |- *. intros y Hy.
  apply Hx. now apply in_rev.
Qed.

Lemma StronglySorted_weaken {A : Type} (R S : A -> A -> Prop) (l : list A) :
  (forall x y, R x y -> S x y) -> StronglySorted R l -> StronglySorted S l.
Proof.
  intros HRS. induction 1 as [|x t Ht IH Hx]; constructor; [assumption|].
  eapply Forall_impl; [|exact Hx]. auto.
Qed.

Lemma subscripts_in_range chunks indices :
  Forall (fun i => (i < List.length chunks)%nat) indices ->
  subscripts chunks indices
  = Returned (map (fun i => nth i chunks []) indices).
Proof.
  induction 1 as [|i rest Hi _ IH]; simpl; [reflexivity|].
  destruct (nth_error chunks i) as [c|] eqn:E.
  - rewrite IH. simpl. now rewrite (nth_error_nth _ _ _ E).
  - apply nth_error_None in E. lia.
Qed.

(** The indices that [top_k_indices] returns: in the order opposite to
    [argsort], all of them indices of the array, none twice. *)
Lemma top_k_indices_sorted sims k :
  StronglySorted (fun i j => asc_at sims j i) (top_k_indices sims k).
Proof.
  unfold top_k_indices. apply StronglySorted_rev.
  destruct (slice_from_suffix (- k) (argsort sims)) as [pre E].
  apply (StronglySorted_suffix _ pre). rewrite <- E. apply argsort_sorted.
Qed.

Lemma top_k_indices_in_range sims k :
  Forall (fun i => (i < List.length sims)%nat) (top_k_indices sims k).
Proof.
  apply Forall_forall. intros i Hi. unfold top_k_indices in Hi.
  apply in_rev in Hi. apply argsort_in_range.
  destruct (slice_from_suffix (- k) (argsort sims)) as [pre E].
  rewrite E. apply in_or_app. now right.
Qed.

Lemma top_k_indices_length sims k :
  0 < k -> len (top_k_indices sims k) = Z.min k (len sims).
Proof.
  intros Hk. unfold top_k_indices, len. rewrite length_rev.
  fold (len (slice_from (- k) (argsort sims))).
  rewrite (slice_from_length k _ Hk). unfold len. now rewrite argsort_length.
Qed.

Lemma top_k_indices_all sims k :
  len sims <= k -> top_k_indices sims k = rev (argsort sims).
Proof.
  intros Hk. unfold top_k_indices. rewrite slice_from_all; [reflexivity|].
  unfold len in *. now rewrite argsort_length.
Qed.

(** ** Vectors and similarities *)

Local Open Scope R_scope.

Lemma normalize_length v : List.length (normalize v) = List.length v.
Proof.
  unfold normalize. destruct (Req_dec_T _ _); [reflexivity|apply length_map].
Qed.

Lemma normalize_zero v : all_zero v -> all_zero (normalize v).
Proof.
  intros Hv. unfold normalize. destruct (Req_dec_T _ _); [assumption|].
  unfold all_zero in *. rewrite Forall_forall in Hv |- *.
  intros x Hx. apply in_map_iff in Hx as (y & <- & Hy).
  rewrite (Hv y Hy). unfold Rdiv. apply Rmult_0_l.
Qed.

Lemma dot_zero_l u v : all_zero u -> dot u v = 0.
Proof.
  unfold dot. intros Hu. revert v.
  induction Hu as [|x u Hx _ IH]; intros v; [reflexivity|].
  destruct v as [|y v]; simpl; [reflexivity|].
  rewrite IH, Hx. lra.
Qed.

Lemma tfidf_row_length vec doc :
  List.length (tfidf_row vec doc)
  = List.length (combine (vocabulary_ vec) (idf_ vec)).
Proof. unfold tfidf_row. now rewrite normalize_length, length_map. Qed.

(** A document that shares no term with the vocabulary has the zero
    vector. *)
Lemma tfidf_row_unknown vec doc :
  (forall t, In t doc -> ~ In t (vocabulary_ vec)) ->
  all_zero (tfidf_row vec doc).
Proof.
  intros Hdoc. unfold tfidf_row. apply normalize_zero.
  apply Forall_forall. intros x Hx.
  apply in_map_iff in Hx as ([t w] & <- & Hp). simpl.
  apply in_combine_l in Hp.
  assert (E : term_count t doc = 0%nat).
  { unfold term_count. apply count_occ_not_In. intros Hin.
    exact (Hdoc t Hin Hp). }
  rewrite E. simpl. apply Rmult_0_l.
Qed.

Lemma cosine_similarity_rows x Y :
  Y <> [] ->
  Forall (fun y => List.length y = List.length x) Y ->
  cosine_similarity x Y
  = Returned (map (fun y => dot (normalize x) (normalize y)) Y).
Proof.
  intros Hne Hlen. unfold cosine_similarity.
  destruct Y as [|y0 Y0]; [contradiction|].
  set (Y := y0 :: Y0) in *.
  assert (E : forallb (fun y => (List.length y =? List.length x)%nat) Y = true).
  { apply forallb_forall. rewrite Forall_forall in Hlen.
    intros y Hy. apply Nat.eqb_eq. now apply Hlen. }
  now rewrite E.
Qed.

Local Close Scope R_scope.

(** ** A built index *)

(** What [Build] returns, when it returns: the fitted vectoriser, one row
    for each fragment, and the fragments themselves. *)
Lemma Build_returned fragments index :
  Build fragments = Returned index ->
  fragments <> []
  /\ index = (fit (map analyze fragments),
              map (tfidf_row (fit (map analyze fragments)))
                  (map analyze fragments),
              fragments).
Proof.
  unfold Build, create_vector_store, fit_transform.
  destruct (build_vocabulary (map analyze fragments)) eqn:E; simpl.
  - discriminate.
  - intros H. injection H as <-. split; [|reflexivity].
    intros ->. discriminate.
Qed.

Lemma Build_nonempty_vocabulary fragments :
  build_vocabulary (map analyze fragments) <> [] ->
  Build fragments
  = Returned (fit (map analyze fragments),
              map (tfidf_row (fit (map analyze fragments)))
                  (map analyze fragments),
              fragments).
Proof.
  unfold Build, create_vector_store, fit_transform.
  destruct (build_vocabulary (map analyze fragments)); [contradiction|].
  reflexivity.
Qed.

(** [Query] on a built index: it returns, and what it returns are the
    fragments at the indices [top_k_indices] picks from the similarities,
    one similarity for each fragment. *)
Lemma Query_built fragments index query k :
  Build fragments = Returned index ->
  exists sims,
    similarities_of index query = Returned sims
    /\ List.length sims = List.length fragments
    /\ Query index query k
       = Returned (map (fun i => nth i fragments []) (top_k_indices sims k)).
Proof.
  intros HB. destruct (Build_returned fragments index HB) as [Hne ->].
  set (vec := fit (map analyze fragments)).
  set (vectors := map (tfidf_row vec) (map analyze fragments)).
  assert (HY : vectors <> []).
  { unfold vectors. destruct fragments; [contradiction|discriminate]. }
  assert (Hlen : Forall (fun y => List.length y
                                  = List.length (transform vec query)) vectors).
  { apply Forall_forall. intros y Hy. unfold vectors in Hy.
    apply in_map_iff in Hy as (d & <- & _). unfold transform.
    now rewrite !tfidf_row_length. }
  exists (map (fun y => dot (normalize (transform vec query)) (normalize y))
              vectors).
  unfold similarities_of, Query, retrieve_relevant_chunks.
  rewrite (cosine_similarity_rows _ _ HY Hlen). simpl.
  assert (Hn : List.length
                 (map (fun y => dot (normalize (transform vec query))
                                    (normalize y)) vectors)
               = List.length fragments).
  { unfold vectors. now rewrite !length_map. }
  repeat split; [exact Hn|].
  apply subscripts_in_range. rewrite <- Hn. apply top_k_indices_in_range.
Qed.

(** With a query that shares no term with the vocabulary, every similarity
    is 0. *)
Lemma similarities_unknown_terms vectorizer vectors chunks query sims :
  (forall t, In t (analyze query) -> ~ In t (vocabulary_ vectorizer)) ->
  similarities_of (vectorizer, vectors, chunks) query = Returned sims ->
  all_zero sims.
Proof.
  intros Hq. unfold similarities_of, cosine_similarity.
  destruct vectors as [|y0 Y0]; [discriminate|].
  destruct (forallb _ _); [|discriminate].
  intros H. injection H as <-.
  apply Forall_forall.
  intros s [<-|Hs]; [|apply in_map_iff in Hs as (y & <- & _)];
    apply dot_zero_l, normalize_zero, tfidf_row_unknown, Hq.
Qed.

Lemma vocabulary_fit docs : vocabulary_ (fit docs) = build_vocabulary docs.
Proof. reflexivity. Qed.

Lemma StronglySorted_nth_error {A : Type} (R : A -> A -> Prop) (l : list A) :
  StronglySorted R l ->
  forall p q x y,
    (p < q)%nat -> nth_error l p = Some x -> nth_error l q = Some y -> R x y.
Proof.
  induction 1 as [|z t Ht IH Hz]; intros p q x y Hpq Hp Hq.
  - destruct p; discriminate.
  - destruct q as [|q]; [lia|]. simpl in Hq.
    destruct p as [|p]; simpl in Hp.
    + injection Hp as <-. rewrite Forall_forall in Hz.
      apply Hz. eapply nth_error_In; eassumption.
    + apply (IH p q); [lia|assumption..].
Qed.

Lemma map_nth_seq {A : Type} (l : list A) (d : A) :
  map (fun i => nth i l d) (seq 0 (List.length l)) = l.
Proof.
  induction l as [|x l IH]; simpl; [reflexivity|].
  f_equal. rewrite <- seq_shift, map_map. exact IH.
Qed.

(** ** The retriever against the specification *)

Lemma scenario_index_built : Build scenario_fragments = Returned scenario_index.
Proof. apply Build_nonempty_vocabulary. vm_compute. discriminate. Qed.

Lemma scenario_unknown_term t :
  In t (analyze (lit "zzz")) ->
  ~ In t (vocabulary_ (fst (fst scenario_index))).
Proof.
  unfold scenario_index. cbn [fst]. rewrite vocabulary_fit.
  vm_compute. intros [<-|[]] H.
  repeat (destruct H as [H|H]; [discriminate H|]). exact H.
Qed.

(** The indices that [Query] picks on the scenario index for the query
    "zzz", which shares no term with it. *)
Lemma scenario_unknown_query k :
  exists sims,
    similarities_of scenario_index (lit "zzz") = Returned sims
    /\ sims = [0; 0; 0]%R
    /\ Query scenario_index (lit "zzz") k
       = Returned (map (fun i => nth i scenario_fragments [])
                       (rev (slice_from (- k) [0; 1; 2]%nat))).
Proof.
  destruct (Query_built scenario_fragments scenario_index (lit "zzz") k
              scenario_index_built) as (sims & Hs & Hn & Hq).
  assert (Hz : all_zero sims).
  { apply (similarities_unknown_terms _ _ _ _ _ scenario_unknown_term Hs). }
  exists sims. split; [assumption|].
  assert (E : sims = [0; 0; 0]%R).
  { destruct sims as [|a [|b [|c [|d sims]]]]; try discriminate Hn.
    inversion Hz as [|? ? -> Hz1]; subst.
    inversion Hz1 as [|? ? -> Hz2]; subst.
    inversion Hz2 as [|? ? -> _]; subst. reflexivity. }
  split; [assumption|].
  rewrite Hq. unfold top_k_indices.
  rewrite (argsort_constant 0%R sims Hz), Hn. reflexivity.
Qed.

Lemma top_k_indices_scenario_zeros :
  top_k_indices [0; 0; 0]%R 2 = [2; 1]%nat.
Proof.
  unfold top_k_indices.
  rewrite (argsort_constant 0%R) by (repeat constructor).
  reflexivity.
Qed.

(** C2, as the specification states it, does not hold: on the index built
    from the three fragments of the scenario, the query "zzz" has similarity
    0 to every fragment, and [Query] with [k = 2] returns the fragment of
    index 2 before the fragment of index 1. *)
Lemma query_scenario_ties_higher_index_first :
  Build scenario_fragments = Returned scenario_index
  /\ similarities_of scenario_index (lit "zzz") = Returned [0; 0; 0]%R
  /\ Query scenario_index (lit "zzz") 2
     = Returned [lit "beta alpha"; lit "gamma alpha"]
  /\ ~ lower_index_first [0; 0; 0]%R (top_k_indices [0; 0; 0]%R 2).
Proof.
  split; [exact scenario_index_built|].
  destruct (scenario_unknown_query 2) as (sims & Hs & -> & Hq).
  split; [exact Hs|]. split; [exact Hq|].
  rewrite top_k_indices_scenario_zeros. intros H.
  specialize (H 1%nat 0%nat 1%nat 2%nat eq_refl eq_refl eq_refl).
  lia.
Qed.

(** The model of [argsort] is one ascending [argsort]. *)
Lemma argsort_ascending : ascending_argsort argsort.
Proof.
  intros a. split; [apply argsort_perm|].
  apply (StronglySorted_weaken (asc_at a)); [|apply argsort_sorted].
  intros i j [Hlt|[Heq _]]; [now left|now right].
Qed.

Lemma Query_with_argsort index query k :
  Query_with argsort index query k = Query index query k.
Proof. destruct index as [[vectorizer vectors] chunks]. reflexivity. Qed.

Lemma Query_with_built sort fragments index query k :
  ascending_argsort sort ->
  Build fragments = Returned index ->
  exists sims,
    similarities_of index query = Returned sims
    /\ List.length sims = List.length fragments
    /\ Query_with sort index query k
       = Returned (map (fun i => nth i fragments [])
                       (top_k_indices_with sort sims k)).
Proof.
  intros Hsort HB.
  destruct (Query_built fragments index query k HB) as (sims & Hs & Hn & _).
  exists sims. split; [assumption|]. split; [assumption|].
  destruct (Build_returned fragments index HB) as [_ ->].
  unfold similarities_of in Hs.
  unfold Query_with, retrieve_relevant_chunks_with. rewrite Hs. simpl.
  apply subscripts_in_range. apply Forall_forall. intros i Hi.
  unfold top_k_indices_with in Hi. apply in_rev in Hi.
  destruct (slice_from_suffix (- k) (sort sims)) as [pre E].
  assert (Hin : In i (sort sims)).
  { rewrite E. apply in_or_app. now right. }
  apply (Permutation_in _ (proj1 (Hsort sims))) in Hin.
  apply in_seq in Hin. lia.
Qed.

(** C2, amended: for every built index, query and [k > 0], and whatever
    order [argsort] gives to equal elements, [Query] returns [min k n]
    fragments in the order of descending similarity to the query; it has no
    tie-break of its own: the fragments come in the order of [argsort] read
    from its end, those of equal similarity too. *)
Theorem query_orders_by_similarity_only sort fragments index query k :
  ascending_argsort sort ->
  Build fragments = Returned index -> 0 < k ->
  exists sims indices,
    similarities_of index query = Returned sims
    /\ Query_with sort index query k
       = Returned (map (fun i => nth i fragments []) indices)
    /\ indices = rev (slice_from (- k) (sort sims))
    /\ len indices = Z.min k (len fragments)
    /\ StronglySorted (fun i j => (nth j sims 0 <= nth i sims 0)%R) indices.
Proof.
  intros Hsort HB Hk.
  destruct (Query_with_built sort fragments index query k Hsort HB)
    as (sims & Hs & Hn & HQ).
  exists sims, (top_k_indices_with sort sims k).
  split; [assumption|]. split; [assumption|]. split; [reflexivity|].
  destruct (Hsort sims) as [Hperm Hsorted].
  unfold top_k_indices_with. split.
  - unfold len. rewrite length_rev.
    fold (len (slice_from (- k) (sort sims))).
    rewrite (slice_from_length k _ Hk). unfold len.
    now rewrite (Permutation_length Hperm), length_seq, Hn.
  - apply (StronglySorted_rev (fun i j => (nth i sims 0 <= nth j sims 0)%R)).
    destruct (slice_from_suffix (- k) (sort sims)) as [pre E].
    apply (StronglySorted_suffix _ pre). now rewrite <- E.
Qed.

Lemma query_orders_by_similarity_only_witness :
  ascending_argsort argsort
  /\ Build scenario_fragments = Returned scenario_index /\ 0 < 2
  /\ exists sims indices,
       similarities_of scenario_index (lit "zzz") = Returned sims
       /\ Query_with argsort scenario_index (lit "zzz") 2
          = Returned (map (fun i => nth i scenario_fragments []) indices)
       /\ indices = rev (slice_from (- 2) (argsort sims))
       /\ len indices = Z.min 2 (len scenario_fragments)
       /\ StronglySorted (fun i j => (nth j sims 0 <= nth i sims 0)%R)
                         indices.
Proof.
  split; [exact argsort_ascending|].
  split; [exact scenario_index_built|]. split; [lia|].
  apply (query_orders_by_similarity_only argsort scenario_fragments
           scenario_index (lit "zzz") 2);
    [exact argsort_ascending|exact scenario_index_built|lia].
Defined.

(** C3, as the specification states it, does not hold: on the index of the
    scenario, [Query] with [k = 0] raises nothing and returns fragments. *)
Lemma query_zero_k_returns :
  Build scenario_fragments = Returned scenario_index
  /\ Query scenario_index (lit "zzz") 0 <> Raised InvalidArgument
  /\ Query scenario_index (lit "zzz") 0
     = Returned [lit "beta alpha"; lit "gamma alpha"; lit "alpha beta"].
Proof.
  split; [exact scenario_index_built|].
  destruct (scenario_unknown_query 0) as (sims & _ & _ & Hq).
  rewrite Hq. split; [discriminate|reflexivity].
Qed.

(** C3, amended: for every built index and query, [Query] with [k <= 0]
    does not fail; it returns fragments of the index, and for [k < 0] as
    many of them as the index has beyond the first [-k], none when it has
    no more than [-k]. *)
Theorem query_nonpositive_k fragments index query k :
  Build fragments = Returned index -> k <= 0 ->
  exists out,
    Query index query k = Returned out
    /\ incl out fragments
    /\ (k < 0 -> len out = Z.max (len fragments + k) 0).
Proof.
  intros HB _.
  destruct (Query_built fragments index query k HB) as (sims & _ & Hn & Hq).
  exists (map (fun i => nth i fragments []) (top_k_indices sims k)).
  split; [assumption|]. split.
  - intros f Hf. apply in_map_iff in Hf as (i & <- & Hi).
    apply nth_In.
    pose proof (top_k_indices_in_range sims k) as Hr.
    rewrite Forall_forall in Hr. rewrite <- Hn. now apply Hr.
  - intros Hk. unfold len, top_k_indices. rewrite length_map, length_rev.
    fold (len (slice_from (- k) (argsort sims))).
    rewrite (slice_from_negative_length k _ Hk).
    unfold len. now rewrite argsort_length, Hn.
Qed.

Lemma query_nonpositive_k_witness :
  Build scenario_fragments = Returned scenario_index /\ -1 <= 0
  /\ exists out,
       Query scenario_index (lit "alpha") (-1) = Returned out
       /\ incl out scenario_fragments
       /\ (-1 < 0 -> len out = Z.max (len scenario_fragments + -1) 0).
Proof.
  split; [exact scenario_index_built|]. split; [lia|].
  apply (query_nonpositive_k scenario_fragments scenario_index
           (lit "alpha") (-1)); [exact scenario_index_built|lia].
Defined.

(** C7: for every built index with [n] fragments, every [k > 0] and every
    query none of whose terms is in the vocabulary, [Query] does not fail:
    it returns [min k n] fragments of the index, and the similarity of
    every fragment to the query is 0. *)
Theorem unknown_terms_tolerated fragments index query k :
  Build fragments = Returned index -> 0 < k ->
  (forall t, In t (analyze query) -> ~ In t (vocabulary_ (fst (fst index)))) ->
  exists sims out,
    similarities_of index query = Returned sims
    /\ all_zero sims
    /\ Query index query k = Returned out
    /\ incl out fragments
    /\ len out = Z.min k (len fragments).
Proof.
  intros HB Hk Hq.
  destruct (Query_built fragments index query k HB) as (sims & Hs & Hn & HQ).
  exists sims, (map (fun i => nth i fragments []) (top_k_indices sims k)).
  split; [assumption|]. split.
  { destruct index as [[vectorizer vectors] chunks].
    exact (similarities_unknown_terms _ _ _ _ _ Hq Hs). }
  split; [assumption|]. split.
  - intros f Hf. apply in_map_iff in Hf as (i & <- & Hi).
    apply nth_In.
    pose proof (top_k_indices_in_range sims k) as Hr.
    rewrite Forall_forall in Hr. rewrite <- Hn. now apply Hr.
  - unfold len at 1. rewrite length_map.
    fold (len (top_k_indices sims k)).
    rewrite (top_k_indices_length sims k Hk). unfold len. now rewrite Hn.
Qed.

Lemma unknown_terms_tolerated_witness :
  Build scenario_fragments = Returned scenario_index /\ 0 < 2
  /\ (forall t, In t (analyze (lit "zzz")) ->
                ~ In t (vocabulary_ (fst (fst scenario_index))))
  /\ exists sims out,
       similarities_of scenario_index (lit "zzz") = Returned sims
       /\ all_zero sims
       /\ Query scenario_index (lit "zzz") 2 = Returned out
       /\ incl out scenario_fragments
       /\ len out = Z.min 2 (len scenario_fragments).
Proof.
  split; [exact scenario_index_built|]. split; [lia|].
  split; [exact scenario_unknown_term|].
  apply (unknown_terms_tolerated scenario_fragments scenario_index
           (lit "zzz") 2);
    [exact scenario_index_built|lia|exact scenario_unknown_term].
Defined.

(** C8: for every built index with [n] fragments, every query and every
    [k > n], [Query] does not fail: it returns all [n] fragments of the
    index, each once, in the order of descending similarity to the
    query. *)
Theorem query_k_beyond_corpus fragments index query k :
  Build fragments = Returned index -> len fragments < k ->
  exists sims indices,
    similarities_of index query = Returned sims
    /\ Query index query k
       = Returned (map (fun i => nth i fragments []) indices)
    /\ Permutation indices (seq 0 (List.length fragments))
    /\ Permutation (map (fun i => nth i fragments []) indices) fragments
    /\ StronglySorted (fun i j => (nth j sims 0 <= nth i sims 0)%R) indices.
Proof.
  intros HB Hk.
  destruct (Query_built fragments index query k HB) as (sims & Hs & Hn & HQ).
  exists sims, (top_k_indices sims k).
  split; [assumption|]. split; [assumption|].
  assert (Hall : top_k_indices sims k = rev (argsort sims)).
  { apply top_k_indices_all. unfold len in *. lia. }
  assert (Hperm : Permutation (top_k_indices sims k)
                              (seq 0 (List.length fragments))).
  { rewrite Hall, <- Hn, <- (argsort_perm sims). symmetry.
    apply Permutation_rev. }
  split; [exact Hperm|]. split.
  - etransitivity; [apply Permutation_map, Hperm|].
    now rewrite map_nth_seq.
  - apply (StronglySorted_weaken (fun i j => asc_at sims j i)).
    + intros i j [Hlt|[Heq _]]; [now left|now right].
    + apply top_k_indices_sorted.
Qed.

Lemma query_k_beyond_corpus_witness :
  Build scenario_fragments = Returned scenario_index
  /\ len scenario_fragments < 100
  /\ exists sims indices,
       similarities_of scenario_index (lit "alpha") = Returned sims
       /\ Query scenario_index (lit "alpha") 100
          = Returned (map (fun i => nth i scenario_fragments []) indices)
       /\ Permutation indices (seq 0 (List.length scenario_fragments))
       /\ Permutation (map (fun i => nth i scenario_fragments []) indices)
                      scenario_fragments
       /\ StronglySorted (fun i j => (nth j sims 0 <= nth i sims 0)%R)
                         indices.
Proof.
  split; [exact scenario_index_built|].
  split; [vm_compute; reflexivity|].
  apply (query_k_beyond_corpus scenario_fragments scenario_index
           (lit "alpha") 100);
    [exact scenario_index_built|vm_compute; reflexivity].
Defined.

(** C9: [Build] with no fragment fails with [EmptyCorpus]; it returns no
    index. *)
Theorem build_empty_corpus :
  Build [] = Raised EmptyCorpus
  /\ forall index, Build [] <> Returned index.
Proof.
  split; [reflexivity|]. intros index H.
  destruct (Build_returned [] index H) as [Hne _]. now apply Hne.
Qed.

(** * Further properties of the code *)

(** ** The fragments as groups of consecutive words *)

Lemma buffer_app us vs : buffer (us ++ vs) = buffer us ++ buffer vs.
Proof. unfold buffer. now rewrite map_app, concat_app. Qed.

Lemma buffer_snoc us w : buffer (us ++ [w]) = buffer us ++ w ++ [space].
Proof. rewrite buffer_app. unfold buffer at 2. simpl. now rewrite app_nil_r. Qed.

Lemma buffer_join us : us <> [] -> buffer us = join_spaces us ++ [space].
Proof.
  induction us as [|w [|v r] IH]; intros Hne.
  - contradiction.
  - unfold buffer. simpl. now rewrite app_nil_r.
  - change (buffer (w :: v :: r)) with ((w ++ [space]) ++ buffer (v :: r)).
    change (join_spaces (w :: v :: r)) with (w ++ space :: join_spaces (v :: r)).
    rewrite IH by discriminate. rewrite <- !app_assoc. reflexivity.
Qed.

Lemma buffer_nil_inv us : Forall (token isspace) us -> buffer us = [] -> us = [].
Proof.
  destruct us as [|w us]; [reflexivity|].
  intros _ H. unfold buffer in H. simpl in H. destruct w; discriminate.
Qed.

Lemma last_app_nonempty {A : Type} (a b : list A) d :
  b <> [] -> last (a ++ b) d = last b d.
Proof.
  intros Hb. induction a as [|x a IH]; [reflexivity|].
  simpl. rewrite IH. destruct (a ++ b) eqn:E; [|reflexivity].
  apply app_eq_nil in E as [_ ->]. contradiction.
Qed.

Lemma strip_snoc_space x :
  x <> [] -> isspace (hd space x) = false -> isspace (last x space) = false ->
  strip (x ++ [space]) = x.
Proof.
  intros Hne Hhd Hlast. unfold strip, rstrip.
  assert (Hl : lstrip (x ++ [space]) = x ++ [space]).
  { destruct x as [|c x]; [contradiction|]. simpl in *. now rewrite Hhd. }
  rewrite Hl, rev_app_distr. simpl.
  destruct (exists_last Hne) as (y & a & ->).
  rewrite last_last in Hlast. rewrite rev_app_distr. simpl.
  rewrite Hlast. rewrite <- (rev_involutive y) at 2.
  change (a :: rev y) with ([a] ++ rev y). rewrite rev_app_distr.
  now rewrite rev_involutive.
Qed.

Lemma token_edges w :
  token isspace w ->
  w <> [] /\ isspace (hd space w) = false /\ isspace (last w space) = false.
Proof.
  intros [Hne Hw]. split; [assumption|].
  rewrite forallb_forall in Hw. split.
  - destruct w as [|c w]; [contradiction|]. simpl.
    apply negb_true_iff, Hw. now left.
  - destruct (exists_last Hne) as (y & a & ->). rewrite last_last.
    apply negb_true_iff, Hw. apply in_or_app. right. now left.
Qed.

Lemma join_spaces_edges us :
  Forall (token isspace) us -> us <> [] ->
  join_spaces us <> []
  /\ isspace (hd space (join_spaces us)) = false
  /\ isspace (last (join_spaces us) space) = false.
Proof.
  induction 1 as [|w us Hw Hus IH]; intros Hne; [contradiction|].
  destruct (token_edges w Hw) as (Hwne & Hhd & Hlast).
  destruct us as [|v r]; [now repeat split|].
  change (join_spaces (w :: v :: r)) with (w ++ space :: join_spaces (v :: r)).
  destruct IH as (Hj & _ & Hjl); [discriminate|]. repeat split.
  - destruct w; [contradiction|discriminate].
  - destruct w; [contradiction|exact Hhd].
  - change (w ++ space :: join_spaces (v :: r))
      with (w ++ [space] ++ join_spaces (v :: r)).
    rewrite app_assoc, last_app_nonempty by assumption. exact Hjl.
Qed.

Lemma strip_buffer us :
  Forall (token isspace) us -> strip (buffer us) = join_spaces us.
Proof.
  intros Hus. destruct us as [|w us]; [reflexivity|].
  rewrite buffer_join by discriminate.
  destruct (join_spaces_edges (w :: us) Hus) as (Hne & Hhd & Hlast);
    [discriminate|].
  now apply strip_snoc_space.
Qed.

Lemma split_join_tokens g :
  Forall (token isspace) g -> split (join_spaces g) = g.
Proof.
  intros Hg. rewrite split_join_spaces.
  induction Hg as [|w g Hw _ IH]; [reflexivity|].
  simpl. rewrite IH. unfold split. now rewrite (fields_token _ _ Hw).
Qed.

Lemma len_buffer_snoc us w :
  len (buffer (us ++ [w])) = len (buffer us) + len w + 1.
Proof.
  rewrite buffer_snoc. unfold len. rewrite !length_app. simpl. lia.
Qed.

Lemma chain_snoc chunk_size gs g g' :
  chain chunk_size (gs ++ [g]) -> closed_by chunk_size g g' ->
  chain chunk_size ((gs ++ [g]) ++ [g']).
Proof.
  induction gs as [|h [|h' t] IH]; intros Hc Hg; simpl in *.
  - now split.
  - destruct Hc as [Hh _]. now repeat split.
  - destruct Hc as [Hh Hc]. split; [assumption|]. now apply IH.
Qed.

Lemma chain_grow_last chunk_size gs us w :
  (us = [] -> gs = []) ->
  chain chunk_size (gs ++ [us]) -> chain chunk_size (gs ++ [us ++ [w]]).
Proof.
  intros Hus. induction gs as [|h [|h' t] IH]; intros Hc; simpl in *.
  - exact I.
  - destruct Hc as [Hh _]. split; [|exact I].
    destruct us as [|u us]; [now discriminate Hus|exact Hh].
  - destruct Hc as [Hh Hc]. split; [assumption|].
    apply IH; [|assumption]. intros E. now discriminate (Hus E).
Qed.

Lemma loop_inv_start chunk_size : loop_inv chunk_size [] ([], []).
Proof.
  exists [], []. repeat split; simpl; auto.
  constructor; [now left|constructor].
Qed.

Lemma chunk_step_inv chunk_size done st w :
  token isspace w -> Forall (token isspace) done ->
  loop_inv chunk_size done st ->
  loop_inv chunk_size (done ++ [w]) (chunk_step chunk_size st w).
Proof.
  intros Hw Hdone (gs & us & Hc & Hb & Hd & Hz & Hne & Hok & Hch).
  destruct st as [chunks cur]. simpl in Hc, Hb. subst chunks cur.
  assert (Hus : Forall (token isspace) us).
  { rewrite <- Hd in Hdone. now apply Forall_app in Hdone. }
  unfold chunk_step.
  destruct (len (buffer us) + len w + 1 <=? chunk_size) eqn:Hfit.
  - apply Z.leb_le in Hfit.
    exists gs, (us ++ [w]). simpl. repeat split.
    + symmetry. apply buffer_snoc.
    + now rewrite app_assoc, Hd.
    + intros E. now destruct us.
    + assumption.
    + apply Forall_app in Hok as [Hgs _]. apply Forall_app.
      split; [assumption|]. constructor; [|constructor].
      right. right. rewrite len_buffer_snoc. exact Hfit.
    + now apply chain_grow_last.
  - apply Z.leb_gt in Hfit.
    exists (gs ++ [us]), [w]. simpl. repeat split.
    + rewrite map_app. simpl. now rewrite (strip_buffer us Hus).
    + unfold buffer. simpl. now rewrite app_nil_r.
    + rewrite concat_app. simpl. now rewrite app_nil_r, Hd.
    + discriminate.
    + destruct gs as [|h t]; simpl; [constructor|].
      apply Forall_app. split; [assumption|].
      constructor; [|constructor]. intros E. now discriminate (Hz E).
    + apply Forall_app. split; [assumption|].
      constructor; [|constructor]. right. left. now exists w.
    + apply chain_snoc; [assumption|]. simpl. lia.
Qed.

Lemma chunk_loop_inv chunk_size ws :
  forall done st,
    Forall (token isspace) (done ++ ws) ->
    loop_inv chunk_size done st ->
    loop_inv chunk_size (done ++ ws)
             (fold_left (chunk_step chunk_size) ws st).
Proof.
  induction ws as [|w ws IH]; intros done st Htok Hinv; simpl.
  - now rewrite app_nil_r.
  - replace (done ++ w :: ws) with ((done ++ [w]) ++ ws) in *
      by now rewrite <- app_assoc.
    apply IH; [assumption|].
    apply Forall_app in Htok as [Hdw _].
    apply Forall_app in Hdw as [Hd Hw]. inversion Hw; subst.
    now apply chunk_step_inv.
Qed.

(** The result of [split_into_chunks], as groups of the words of the
    text. *)
Lemma split_into_chunks_groups text chunk_size :
  exists gs,
    split_into_chunks text chunk_size = map join_spaces gs
    /\ List.concat gs = split text
    /\ Forall (fun g => g <> []) (tl gs)
    /\ Forall (group_ok chunk_size) gs
    /\ chain chunk_size gs.
Proof.
  unfold split_into_chunks.
  pose proof (chunk_loop_inv chunk_size (split text) [] ([], [])
                (split_tokens text) (loop_inv_start chunk_size)) as Hinv.
  simpl in Hinv.
  destruct (fold_left (chunk_step chunk_size) (split text) ([], []))
    as [chunks cur].
  destruct Hinv as (gs & us & Hc & Hb & Hd & Hz & Hne & Hok & Hch).
  simpl in Hc, Hb. subst chunks cur.
  assert (Hus : Forall (token isspace) us).
  { pose proof (split_tokens text) as Ht. rewrite <- Hd in Ht.
    now apply Forall_app in Ht. }
  destruct us as [|u us].
  - rewrite (Hz eq_refl) in *. exists []. simpl in *.
    repeat split; auto.
  - exists (gs ++ [u :: us]).
    assert (E : buffer (u :: us) = join_spaces (u :: us) ++ [space])
      by (apply buffer_join; discriminate).
    unfold chunk_finish. destruct (buffer (u :: us)) eqn:Eb.
    + symmetry in E. now apply app_eq_nil in E as [_ E].
    + rewrite <- Eb, (strip_buffer _ Hus), map_app. simpl.
      repeat split; try assumption.
      * rewrite concat_app. simpl. now rewrite app_nil_r.
      * destruct gs as [|h t]; simpl; [constructor|].
        apply Forall_app. split; [assumption|].
        constructor; [discriminate|constructor].
Qed.

Lemma join_spaces_nonempty g :
  Forall (token isspace) g -> g <> [] -> join_spaces g <> [].
Proof. intros Hg Hne. now destruct (join_spaces_edges g Hg Hne). Qed.

Lemma Forall_concat_tokens (gs : list (list str)) :
  Forall (token isspace) (List.concat gs) ->
  Forall (Forall (token isspace)) gs.
Proof.
  induction gs as [|g gs IH]; simpl; intros H; constructor.
  - now apply Forall_app in H.
  - apply IH. now apply Forall_app in H.
Qed.

Lemma chain_nth_error chunk_size gs :
  chain chunk_size gs ->
  forall i g g',
    nth_error gs i = Some g -> nth_error gs (S i) = Some g' ->
    closed_by chunk_size g g'.
Proof.
  induction gs as [|h [|h' t] IH]; intros Hc i g g' Hg Hg'.
  - destruct i; discriminate.
  - destruct i as [|[|i]]; discriminate.
  - destruct Hc as [Hh Hc]. destruct i as [|i].
    + simpl in Hg, Hg'. injection Hg as <-. injection Hg' as <-. exact Hh.
    + apply (IH Hc i); assumption.
Qed.

Lemma buffer_len_join g :
  Forall (token isspace) g -> buffer_len (join_spaces g) = len (buffer g).
Proof.
  intros Hg. destruct g as [|w g]; [reflexivity|].
  pose proof (join_spaces_nonempty (w :: g) Hg) as Hne.
  rewrite buffer_join by discriminate.
  destruct (join_spaces (w :: g)) eqn:E; [now destruct Hne|].
  unfold buffer_len, len. rewrite length_app. simpl. lia.
Qed.

(** X1: the fragments are groups of consecutive words of the text, in the
    order of the text, the words of a group joined by single spaces; no
    word is lost, repeated or cut, and no fragment after the first is
    empty. *)
Theorem fragments_are_word_groups text chunk_size :
  exists gs,
    split_into_chunks text chunk_size = map join_spaces gs
    /\ List.concat gs = split text
    /\ Forall (fun g => g <> []) (tl gs)
    /\ Forall (fun f => f <> []) (tl (split_into_chunks text chunk_size)).
Proof.
  destruct (split_into_chunks_groups text chunk_size)
    as (gs & E & Hc & Hne & _ & _).
  exists gs. repeat split; try assumption.
  rewrite E. pose proof (split_tokens text) as Ht. rewrite <- Hc in Ht.
  apply Forall_concat_tokens in Ht.
  destruct gs as [|g gs]; simpl in *; [constructor|].
  inversion Ht as [|? ? _ Hgs]; subst.
  rewrite Forall_forall in Hne, Hgs |- *.
  intros f Hf. apply in_map_iff in Hf as (g' & <- & Hg').
  apply join_spaces_nonempty; auto.
Qed.

(** X2: every fragment is normalised: it is its own words joined by single
    spaces, so it neither starts nor ends with white space and has no two
    separators in a row. *)
Theorem fragments_normalised text chunk_size :
  Forall (fun f => join_spaces (split f) = f)
         (split_into_chunks text chunk_size).
Proof.
  destruct (split_into_chunks_groups text chunk_size)
    as (gs & E & Hc & _ & _ & _).
  rewrite E. pose proof (split_tokens text) as Ht. rewrite <- Hc in Ht.
  apply Forall_concat_tokens in Ht.
  rewrite Forall_forall in Ht |- *.
  intros f Hf. apply in_map_iff in Hf as (g & <- & Hg).
  now rewrite (split_join_tokens g (Ht g Hg)).
Qed.

(** X3: a fragment is empty, or is one word of the text, or is shorter than
    [chunk_size]: the buffer counts the space after its last word, so a
    fragment of several words has at most [chunk_size - 1] characters. *)
Theorem fragments_tight_bound text chunk_size :
  Forall (fun f => f = [] \/ In f (split text) \/ len f + 1 <= chunk_size)
         (split_into_chunks text chunk_size).
Proof.
  destruct (split_into_chunks_groups text chunk_size)
    as (gs & E & Hc & _ & Hok & _).
  rewrite E. rewrite Forall_forall in Hok |- *.
  intros f Hf. apply in_map_iff in Hf as (g & <- & Hg).
  destruct (Hok g Hg) as [->|[[w ->]|Hlen]].
  - now left.
  - right. left. rewrite <- Hc. apply in_concat. exists [w].
    split; [assumption|now left].
  - destruct g as [|w g]; [now left|]. right. right.
    rewrite buffer_join in Hlen by discriminate.
    unfold len in *. rewrite length_app in Hlen.
    change (List.length [space]) with 1%nat in Hlen. lia.
Qed.

(** X4: the chunker is greedy: a fragment is closed only when the first
    word of the next fragment does not pass the test of the loop on the
    buffer of the closed one. *)
Theorem fragments_greedy text chunk_size i f f' w ws :
  nth_error (split_into_chunks text chunk_size) i = Some f ->
  nth_error (split_into_chunks text chunk_size) (S i) = Some f' ->
  split f' = w :: ws ->
  chunk_size < buffer_len f + len w + 1.
Proof.
  destruct (split_into_chunks_groups text chunk_size)
    as (gs & E & Hc & _ & _ & Hch).
  rewrite E. intros Hf Hf' Hw.
  pose proof (split_tokens text) as Ht. rewrite <- Hc in Ht.
  apply Forall_concat_tokens in Ht. rewrite Forall_forall in Ht.
  rewrite nth_error_map in Hf, Hf'.
  destruct (nth_error gs i) as [g|] eqn:Eg; [|discriminate].
  destruct (nth_error gs (S i)) as [g'|] eqn:Eg'; [|discriminate].
  simpl in Hf, Hf'. injection Hf as <-. injection Hf' as <-.
  pose proof (chain_nth_error _ _ Hch i g g' Eg Eg') as Hcl.
  rewrite (split_join_tokens g' (Ht g' (nth_error_In _ _ Eg'))) in Hw.
  subst g'. simpl in Hcl.
  now rewrite (buffer_len_join g (Ht g (nth_error_In _ _ Eg))).
Qed.

Lemma fragments_greedy_witness :
  nth_error (split_into_chunks scenario_text 11) 1 = Some (lit "gamma")
  /\ nth_error (split_into_chunks scenario_text 11) 2 = Some (lit "alpha beta")
  /\ split (lit "alpha beta") = [lit "alpha"; lit "beta"]
  /\ 11 < buffer_len (lit "gamma") + len (lit "alpha") + 1.
Proof.
  split; [reflexivity|]. split; [reflexivity|]. split; [reflexivity|].
  apply (fragments_greedy scenario_text 11 1 (lit "gamma") (lit "alpha beta")
           (lit "alpha") [lit "beta"]); reflexivity.
Defined.

Lemma length_concat_nonempty {A : Type} (gs : list (list A)) :
  Forall (fun g => g <> []) gs ->
  (List.length gs <= List.length (List.concat gs))%nat.
Proof.
  induction 1 as [|g gs Hg _ IH]; simpl; [lia|].
  rewrite length_app. destruct g; [contradiction|]. simpl. lia.
Qed.

(** X5: there are never more fragments than words in the text, but for the
    empty fragment that may come first. *)
Theorem fragments_count text chunk_size :
  len (split_into_chunks text chunk_size) <= len (split text) + 1.
Proof.
  destruct (split_into_chunks_groups text chunk_size)
    as (gs & E & Hc & Hne & _ & _).
  rewrite E, <- Hc. unfold len. rewrite length_map.
  destruct gs as [|g gs]; simpl in *; [lia|].
  pose proof (length_concat_nonempty gs Hne). rewrite length_app. lia.
Qed.

(** X6: a text has no fragment exactly when it has no word: the empty text
    and a text of white space give the empty list, every other text gives
    at least one fragment, whatever [chunk_size] is. *)
Theorem no_fragment_iff_no_word text chunk_size :
  split_into_chunks text chunk_size = [] <-> split text = [].
Proof.
  split.
  - destruct (split_into_chunks_groups text chunk_size)
      as (gs & E & Hc & _).
    rewrite E. intros H. apply map_eq_nil in H. subst gs. now rewrite <- Hc.
  - intros H. unfold split_into_chunks. now rewrite H.
Qed.

Lemma len_buffer_app us ws : len (buffer us) <= len (buffer (us ++ ws)).
Proof. rewrite buffer_app. unfold len. rewrite length_app. lia. Qed.

Lemma chunk_loop_all_fit chunk_size ws :
  forall chunks us,
    len (buffer (us ++ ws)) <= chunk_size ->
    fold_left (chunk_step chunk_size) ws (chunks, buffer us)
    = (chunks, buffer (us ++ ws)).
Proof.
  induction ws as [|w ws IH]; intros chunks us Hfit; simpl.
  - now rewrite app_nil_r.
  - replace (us ++ w :: ws) with ((us ++ [w]) ++ ws) in *
      by now rewrite <- app_assoc.
    assert (Hw : (len (buffer us) + len w + 1 <=? chunk_size) = true).
    { apply Z.leb_le. rewrite <- len_buffer_snoc.
      pose proof (len_buffer_app (us ++ [w]) ws). lia. }
    rewrite Hw, <- buffer_snoc. now apply IH.
Qed.

(** X7: a text whose words, each with a space after it, take no more than
    [chunk_size] characters comes back as one fragment, its words joined by
    single spaces. *)
Theorem one_fragment_when_text_fits text chunk_size :
  split text <> [] ->
  len (join_spaces (split text)) + 1 <= chunk_size ->
  split_into_chunks text chunk_size = [join_spaces (split text)].
Proof.
  intros Hne Hfit. unfold split_into_chunks.
  assert (Hb : buffer (split text) = join_spaces (split text) ++ [space])
    by now apply buffer_join.
  change (fold_left (chunk_step chunk_size) (split text) ([], []))
    with (fold_left (chunk_step chunk_size) (split text) ([], buffer [])).
  rewrite (chunk_loop_all_fit chunk_size (split text) [] []).
  - simpl. unfold chunk_finish. destruct (buffer (split text)) eqn:E.
    + symmetry in Hb. now apply app_eq_nil in Hb as [_ Hb].
    + rewrite <- E. now rewrite (strip_buffer _ (split_tokens text)).
  - simpl. rewrite Hb. unfold len in *. rewrite length_app. simpl. lia.
Qed.

Lemma one_fragment_when_text_fits_witness :
  split (lit "  to be   or not ") <> []
  /\ len (join_spaces (split (lit "  to be   or not "))) + 1 <= 13
  /\ split_into_chunks (lit "  to be   or not ") 13
     = [join_spaces (split (lit "  to be   or not "))].
Proof.
  split; [discriminate|]. split; [vm_compute; discriminate|].
  apply (one_fragment_when_text_fits (lit "  to be   or not ") 13);
    [discriminate|vm_compute; discriminate].
Defined.

(** X8: chunking again the fragments joined by single spaces, with the same
    [chunk_size], gives the same fragments. *)
Theorem rechunking_joined_fragments text chunk_size :
  split_into_chunks (join_spaces (split_into_chunks text chunk_size))
                    chunk_size
  = split_into_chunks text chunk_size.
Proof.
  unfold split_into_chunks at 1.
  now rewrite split_join_spaces, split_into_chunks_tokens.
Qed.

(** ** The text of the pages *)

Lemma isspace_newline : isspace newline = true.
Proof. reflexivity. Qed.

Lemma extract_loop_split pages :
  forall text,
    text = [] \/ (exists t, text = t ++ [newline]) ->
    split (fold_left (fun text page => text ++ page ++ [newline]) pages text)
    = split text ++ flat_map split pages.
Proof.
  induction pages as [|page pages IH]; intros text Htext; simpl.
  - now rewrite app_nil_r.
  - rewrite IH.
    + rewrite (app_assoc (split text)). f_equal. unfold split.
      destruct Htext as [->|[t ->]].
      * change (fields isspace []) with (@nil str). simpl.
        apply (fields_snoc_sep _ _ _ isspace_newline).
      * rewrite <- app_assoc. simpl.
        rewrite (fields_app_sep _ t newline _ isspace_newline).
        rewrite (fields_snoc_sep _ t newline isspace_newline).
        f_equal. apply (fields_snoc_sep _ _ _ isspace_newline).
    + right. exists (text ++ page). now rewrite <- app_assoc.
Qed.

Lemma split_extract_text pages :
  split (extract_text_from_pdf pages) = flat_map split pages.
Proof.
  unfold extract_text_from_pdf. rewrite extract_loop_split; [reflexivity|].
  now left.
Qed.

(** X9: the words of the extracted text are the words of the pages, page
    after page: the line feed after every page keeps the last word of a
    page apart from the first word of the next. *)
Theorem extracted_text_words pages :
  split (extract_text_from_pdf pages) = flat_map split pages.
Proof.
  unfold extract_text_from_pdf. rewrite extract_loop_split; [reflexivity|].
  now left.
Qed.

(** ** Words and terms *)

Lemma cons_word_scan_fields sep w rest :
  cons_word (fst (scan sep w)) (snd (scan sep w) ++ rest)
  = fields sep w ++ rest.
Proof.
  unfold fields. destruct (scan sep w) as [u us]. cbn [fst snd].
  symmetry. apply cons_word_app.
Qed.

Lemma flat_map_cons_word sep w ws :
  flat_map (fields sep) (cons_word w ws)
  = fields sep w ++ flat_map (fields sep) ws.
Proof. destruct w; reflexivity. Qed.

Section Nested.
Variables sep1 sep2 : ascii -> bool.
Hypothesis sep1_sep2 : forall c, sep1 c = true -> sep2 c = true.

(** With more separators, the fields are the fields of the fields. *)
Lemma scan_nested s :
  scan sep2 s
  = (fst (scan sep2 (fst (scan sep1 s))),
     snd (scan sep2 (fst (scan sep1 s)))
     ++ flat_map (fields sep2) (snd (scan sep1 s))).
Proof.
  induction s as [|c s IH]; [reflexivity|].
  cbn [scan]. rewrite IH.
  destruct (scan sep1 s) as [w1 ws1]. cbn [fst snd].
  destruct (sep1 c) eqn:H1.
  - rewrite (sep1_sep2 c H1). cbn [fst snd scan app]. f_equal.
    now rewrite cons_word_scan_fields, flat_map_cons_word.
  - cbn [fst snd scan]. destruct (scan sep2 w1) as [w2 ws2]. cbn [fst snd].
    destruct (sep2 c); cbn [fst snd]; [|reflexivity].
    f_equal. symmetry. apply cons_word_app.
Qed.

Lemma fields_nested s :
  fields sep2 s = flat_map (fields sep2) (fields sep1 s).
Proof.
  unfold fields at 1. rewrite scan_nested.
  rewrite cons_word_scan_fields. unfold fields at 4.
  destruct (scan sep1 s) as [w1 ws1]. cbn [fst snd].
  now rewrite flat_map_cons_word.
Qed.
End Nested.

Lemma scan_map sep (f : ascii -> ascii) s :
  (forall c, sep (f c) = sep c) ->
  scan sep (map f s)
  = (map f (fst (scan sep s)), map (map f) (snd (scan sep s))).
Proof.
  intros Hf. induction s as [|c s IH]; [reflexivity|].
  simpl. rewrite IH, Hf. destruct (scan sep s) as [w ws]. simpl.
  destruct (sep c); [|reflexivity].
  simpl. f_equal. now destruct w.
Qed.

Lemma fields_map sep (f : ascii -> ascii) s :
  (forall c, sep (f c) = sep c) ->
  fields sep (map f s) = map (map f) (fields sep s).
Proof.
  intros Hf. unfold fields. rewrite (scan_map sep f s Hf).
  destruct (scan sep s) as [w ws]. simpl. now destruct w.
Qed.

Lemma isspace_lower c : isspace (lower c) = isspace c.
Proof. destruct c as [[] [] [] [] [] [] [] []]; reflexivity. Qed.

Lemma isspace_not_word c : isspace c = true -> negb (isword c) = true.
Proof.
  destruct c as [[] [] [] [] [] [] [] []]; vm_compute; intros; congruence.
Qed.

Lemma filter_flat_map {A B : Type} (p : B -> bool) (g : A -> list B) l :
  filter p (flat_map g l) = flat_map (fun x => filter p (g x)) l.
Proof.
  induction l as [|x l IH]; simpl; [reflexivity|].
  now rewrite filter_app, IH.
Qed.

Lemma flat_map_map {A B C : Type} (g : B -> list C) (h : A -> B) l :
  flat_map g (map h l) = flat_map (fun x => g (h x)) l.
Proof. induction l as [|x l IH]; simpl; [reflexivity|]. now rewrite IH. Qed.

Lemma flat_map_flat_map {A B C : Type} (g : B -> list C) (h : A -> list B) l :
  flat_map g (flat_map h l) = flat_map (fun x => flat_map g (h x)) l.
Proof.
  induction l as [|x l IH]; simpl; [reflexivity|].
  now rewrite flat_map_app, IH.
Qed.

(** The terms of a text are the terms of its words. *)
Lemma analyze_split s : analyze s = flat_map analyze (split s).
Proof.
  unfold analyze at 1.
  rewrite (fields_nested isspace (fun c => negb (isword c)) isspace_not_word).
  rewrite (fields_map isspace lower s isspace_lower).
  rewrite flat_map_map, filter_flat_map. reflexivity.
Qed.

Lemma analyze_chunks text chunk_size :
  List.concat (map analyze (split_into_chunks text chunk_size))
  = analyze text.
Proof.
  rewrite <- flat_map_concat_map.
  rewrite (analyze_split text), <- (split_into_chunks_tokens text chunk_size).
  rewrite flat_map_flat_map. apply flat_map_ext. intros f. apply analyze_split.
Qed.

Lemma analyze_extract_text pages :
  analyze (extract_text_from_pdf pages) = flat_map analyze pages.
Proof.
  rewrite analyze_split, split_extract_text, flat_map_flat_map.
  apply flat_map_ext. intros page. symmetry. apply analyze_split.
Qed.

(** X10: chunking keeps the terms: the terms that the vectoriser finds in
    the fragments, fragment after fragment, are the terms it finds in the
    text, for every [chunk_size]; no term is lost, and none is cut in
    two. *)
Theorem chunking_keeps_terms text chunk_size :
  List.concat (map analyze (split_into_chunks text chunk_size))
  = analyze text.
Proof.
  rewrite <- flat_map_concat_map.
  rewrite (analyze_split text), <- (split_into_chunks_tokens text chunk_size).
  rewrite flat_map_flat_map. apply flat_map_ext. intros f. apply analyze_split.
Qed.

(** X11: the terms of the extracted text are the terms of the pages, page
    after page. *)
Theorem extracted_text_terms pages :
  analyze (extract_text_from_pdf pages) = flat_map analyze pages.
Proof.
  rewrite analyze_split, split_extract_text, flat_map_flat_map.
  apply flat_map_ext. intros page. symmetry. apply analyze_split.
Qed.

(** ** The retriever, for every [k] *)

Lemma StronglySorted_app_in {A : Type} (R : A -> A -> Prop) (l1 l2 : list A) :
  StronglySorted R (l1 ++ l2) ->
  forall x y, In x l1 -> In y l2 -> R x y.
Proof.
  induction l1 as [|a l1 IH]; simpl; intros H x y Hx Hy; [contradiction|].
  inversion H as [|? ? Hs Ha]; subst. destruct Hx as [<-|Hx].
  - rewrite Forall_forall in Ha. apply Ha. apply in_or_app. now right.
  - now apply (IH Hs).
Qed.

Lemma argsort_NoDup sims : NoDup (argsort sims).
Proof.
  apply (Permutation_NoDup (Permutation_sym (argsort_perm sims))).
  apply seq_NoDup.
Qed.

Lemma top_k_indices_NoDup sims k : NoDup (top_k_indices sims k).
Proof.
  unfold top_k_indices. apply NoDup_rev.
  destruct (slice_from_suffix (- k) (argsort sims)) as [pre E].
  pose proof (argsort_NoDup sims) as H. rewrite E in H.
  now apply NoDup_app_remove_l in H.
Qed.

(** An index that [top_k_indices] leaves out has no greater value than one
    it returns. *)
Lemma top_k_indices_dominate sims k i j :
  In i (top_k_indices sims k) ->
  (j < List.length sims)%nat -> ~ In j (top_k_indices sims k) ->
  (nth j sims 0 <= nth i sims 0)%R.
Proof.
  unfold top_k_indices. intros Hi Hj Hnj.
  apply in_rev in Hi. rewrite <- in_rev in Hnj.
  destruct (slice_from_suffix (- k) (argsort sims)) as [pre E].
  assert (Hjp : In j pre).
  { assert (Hja : In j (argsort sims)).
    { apply (Permutation_in _ (Permutation_sym (argsort_perm sims))).
      apply in_seq. lia. }
    rewrite E in Hja. apply in_app_or in Hja as [H|H]; [assumption|].
    contradiction. }
  pose proof (argsort_sorted sims) as Hs. rewrite E in Hs.
  destruct (StronglySorted_app_in _ _ _ Hs j i Hjp Hi) as [Hlt|[Heq _]].
  - now left.
  - now right.
Qed.

(** X12: for every built index with [n] fragments, every query and every
    [k > 0], [Query] returns [min k n] fragments, from positions all
    different, in the order of descending similarity to the query, and no
    fragment that it leaves out is more similar to the query than one it
    returns. *)
Theorem query_returns_top_k fragments index query k :
  Build fragments = Returned index -> 0 < k ->
  exists sims indices,
    similarities_of index query = Returned sims
    /\ Query index query k
       = Returned (map (fun i => nth i fragments []) indices)
    /\ len indices = Z.min k (len fragments)
    /\ NoDup indices
    /\ Forall (fun i => (i < List.length fragments)%nat) indices
    /\ StronglySorted (fun i j => (nth j sims 0 <= nth i sims 0)%R) indices
    /\ forall i j,
         In i indices -> (j < List.length fragments)%nat -> ~ In j indices ->
         (nth j sims 0 <= nth i sims 0)%R.
Proof.
  intros HB Hk.
  destruct (Query_built fragments index query k HB) as (sims & Hs & Hn & HQ).
  exists sims, (top_k_indices sims k).
  split; [assumption|]. split; [assumption|]. split.
  { rewrite (top_k_indices_length sims k Hk). unfold len. now rewrite Hn. }
  split; [apply top_k_indices_NoDup|]. split.
  { rewrite <- Hn. apply top_k_indices_in_range. }
  split.
  - apply (StronglySorted_weaken (fun i j => asc_at sims j i)).
    + intros i j [Hlt|[Heq _]]; [now left|now right].
    + apply top_k_indices_sorted.
  - intros i j Hi Hj Hnj. rewrite <- Hn in Hj.
    now apply (top_k_indices_dominate sims k).
Qed.

Lemma query_returns_top_k_witness :
  Build scenario_fragments = Returned scenario_index /\ 0 < 2
  /\ exists sims indices,
       similarities_of scenario_index (lit "gamma") = Returned sims
       /\ Query scenario_index (lit "gamma") 2
          = Returned (map (fun i => nth i scenario_fragments []) indices)
       /\ len indices = Z.min 2 (len scenario_fragments)
       /\ NoDup indices
       /\ Forall (fun i => (i < List.length scenario_fragments)%nat) indices
       /\ StronglySorted (fun i j => (nth j sims 0 <= nth i sims 0)%R)
                         indices
       /\ forall i j,
            In i indices -> (j < List.length scenario_fragments)%nat ->
            ~ In j indices -> (nth j sims 0 <= nth i sims 0)%R.
Proof.
  split; [exact scenario_index_built|]. split; [lia|].
  apply (query_returns_top_k scenario_fragments scenario_index
           (lit "gamma") 2); [exact scenario_index_built|lia].
Defined.

(** X13: with [k = 0] the slice [[-0:]] is the whole array: for every
    built index and query, [Query] returns all the fragments of the index,
    each once, in the order of descending similarity, and not the empty
    list. *)
Theorem query_zero_k_returns_all fragments index query :
  Build fragments = Returned index ->
  exists sims indices,
    similarities_of index query = Returned sims
    /\ Query index query 0
       = Returned (map (fun i => nth i fragments []) indices)
    /\ Permutation indices (seq 0 (List.length fragments))
    /\ List.length indices = List.length fragments
    /\ fragments <> []
    /\ StronglySorted (fun i j => (nth j sims 0 <= nth i sims 0)%R) indices.
Proof.
  intros HB.
  destruct (Query_built fragments index query 0 HB) as (sims & Hs & Hn & HQ).
  exists sims, (top_k_indices sims 0).
  split; [assumption|]. split; [assumption|].
  assert (Hall : top_k_indices sims 0 = rev (argsort sims)).
  { unfold top_k_indices. now rewrite slice_from_zero. }
  assert (Hperm : Permutation (top_k_indices sims 0)
                              (seq 0 (List.length fragments))).
  { rewrite Hall, <- Hn, <- (argsort_perm sims). symmetry.
    apply Permutation_rev. }
  split; [exact Hperm|]. split.
  { rewrite (Permutation_length Hperm). apply length_seq. }
  split; [exact (proj1 (Build_returned fragments index HB))|].
  apply (StronglySorted_weaken (fun i j => asc_at sims j i)).
  - intros i j [Hlt|[Heq _]]; [now left|now right].
  - apply top_k_indices_sorted.
Qed.

Lemma query_zero_k_returns_all_witness :
  Build scenario_fragments = Returned scenario_index
  /\ exists sims indices,
       similarities_of scenario_index (lit "beta") = Returned sims
       /\ Query scenario_index (lit "beta") 0
          = Returned (map (fun i => nth i scenario_fragments []) indices)
       /\ Permutation indices (seq 0 (List.length scenario_fragments))
       /\ List.length indices = List.length scenario_fragments
       /\ scenario_fragments <> []
       /\ StronglySorted (fun i j => (nth j sims 0 <= nth i sims 0)%R)
                         indices.
Proof.
  split; [exact scenario_index_built|].
  apply (query_zero_k_returns_all scenario_fragments scenario_index
           (lit "beta")). exact scenario_index_built.
Defined.

(** ** Building the index *)

Lemma vocab_insert_nonempty t v : vocab_insert t v <> [].
Proof.
  destruct v as [|u v]; simpl; [discriminate|].
  destruct (str_ltb t u); [discriminate|].
  destruct (str_ltb u t); discriminate.
Qed.

Lemma vocab_fold_nonempty ts :
  forall v, v <> [] -> fold_left (fun v t => vocab_insert t v) ts v <> [].
Proof.
  induction ts as [|t ts IH]; intros v Hv; simpl; [assumption|].
  apply IH, vocab_insert_nonempty.
Qed.

Lemma build_vocabulary_nil docs :
  build_vocabulary docs = [] <-> List.concat docs = [].
Proof.
  unfold build_vocabulary. split.
  - destruct (List.concat docs) as [|t ts]; [reflexivity|].
    cbn [fold_left]. intros H. exfalso. revert H.
    apply vocab_fold_nonempty, vocab_insert_nonempty.
  - now intros ->.
Qed.

Lemma concat_map_nil {A B : Type} (g : A -> list B) l :
  List.concat (map g l) = [] <-> Forall (fun x => g x = []) l.
Proof.
  induction l as [|x l IH]; simpl.
  - split; [constructor|reflexivity].
  - split.
    + intros H. apply app_eq_nil in H as [Hx Hl].
      constructor; [assumption|now apply IH].
    + intros H. inversion H as [|? ? Hx Hl]; subst.
      rewrite Hx. now apply IH.
Qed.

Lemma Build_cases fragments :
  (Build fragments = Raised EmptyCorpus
   <-> Forall (fun f => analyze f = []) fragments)
  /\ ((exists index, Build fragments = Returned index)
      <-> Exists (fun f => analyze f <> []) fragments).
Proof.
  assert (Hnil : build_vocabulary (map analyze fragments) = []
                 <-> Forall (fun f => analyze f = []) fragments).
  { rewrite build_vocabulary_nil. apply concat_map_nil. }
  unfold Build, create_vector_store, fit_transform.
  destruct (build_vocabulary (map analyze fragments)) as [|t v] eqn:E; simpl.
  - assert (Hall : Forall (fun f => analyze f = []) fragments)
      by now apply Hnil.
    split; [tauto|]. split.
    + intros [index H]. discriminate.
    + intros Hex. exfalso. apply Exists_exists in Hex as (f & Hf & Hne).
      rewrite Forall_forall in Hall. now apply Hne, Hall.
  - assert (Hnot : ~ Forall (fun f => analyze f = []) fragments).
    { intros H. apply Hnil in H. discriminate. }
    split.
    + split; [discriminate|contradiction].
    + split; [|intros _; eexists; reflexivity].
      intros _. apply neg_Forall_Exists_neg in Hnot; [assumption|].
      intros f. destruct (analyze f); [now left|right; discriminate].
Qed.

(** X14: [create_vector_store] fails exactly when no chunk holds a term (a
    run of two word characters or more), in particular on no chunk at all,
    and returns an index exactly when some chunk holds one. *)
Theorem build_fails_iff_no_term fragments :
  (Build fragments = Raised EmptyCorpus
   <-> Forall (fun f => analyze f = []) fragments)
  /\ ((exists index, Build fragments = Returned index)
      <-> Exists (fun f => analyze f <> []) fragments).
Proof.
  assert (Hnil : build_vocabulary (map analyze fragments) = []
                 <-> Forall (fun f => analyze f = []) fragments).
  { rewrite build_vocabulary_nil. apply concat_map_nil. }
  unfold Build, create_vector_store, fit_transform.
  destruct (build_vocabulary (map analyze fragments)) as [|t v] eqn:E; simpl.
  - assert (Hall : Forall (fun f => analyze f = []) fragments)
      by now apply Hnil.
    split; [tauto|]. split.
    + intros [index H]. discriminate.
    + intros Hex. exfalso. apply Exists_exists in Hex as (f & Hf & Hne).
      rewrite Forall_forall in Hall. now apply Hne, Hall.
  - assert (Hnot : ~ Forall (fun f => analyze f = []) fragments).
    { intros H. apply Hnil in H. discriminate. }
    split.
    + split; [discriminate|contradiction].
    + split; [|intros _; eexists; reflexivity].
      intros _. apply neg_Forall_Exists_neg in Hnot; [assumption|].
      intros f. destruct (analyze f); [now left|right; discriminate].
Qed.

(** ** The path of the data through [main] *)

Lemma split_into_chunks_within text chunk_size :
  0 <= chunk_size ->
  Forall (within text chunk_size) (split_into_chunks text chunk_size).
Proof.
  intros Hcs. unfold split_into_chunks.
  destruct (chunk_loop_within text chunk_size (split text) (incl_refl _)
              ([], [])) as [Hchunks Hcur].
  - constructor.
  - left. simpl. unfold len. simpl. lia.
  - destruct (fold_left (chunk_step chunk_size) (split text) ([], []))
      as [chunks [|c cur]]; simpl in *; [assumption|].
    apply Forall_app. split; [assumption|]. now constructor.
Qed.

Lemma Query_built_count fragments index query k :
  Build fragments = Returned index -> 0 < k ->
  exists out,
    Query index query k = Returned out
    /\ len out = Z.min k (len fragments)
    /\ incl out fragments.
Proof.
  intros HB Hk.
  destruct (Query_built fragments index query k HB) as (sims & _ & Hn & HQ).
  exists (map (fun i => nth i fragments []) (top_k_indices sims k)).
  split; [assumption|]. split.
  - unfold len at 1. rewrite length_map.
    fold (len (top_k_indices sims k)).
    rewrite (top_k_indices_length sims k Hk). unfold len. now rewrite Hn.
  - intros f Hf. apply in_map_iff in Hf as (i & <- & Hi).
    apply nth_In.
    pose proof (top_k_indices_in_range sims k) as Hr.
    rewrite Forall_forall in Hr. rewrite <- Hn. now apply Hr.
Qed.

Lemma main_relevant_chunks_cases pages question :
  let chunks := split_into_chunks (extract_text_from_pdf pages)
                                  default_chunk_size in
  (Build chunks = Raised EmptyCorpus
   /\ main_relevant_chunks pages question = Raised EmptyCorpus)
  \/ (exists index,
        Build chunks = Returned index
        /\ main_relevant_chunks pages question
           = Query index question default_k).
Proof.
  intros chunks. unfold main_relevant_chunks. fold chunks.
  unfold Build, create_vector_store, fit_transform.
  destruct (build_vocabulary (map analyze chunks)); simpl.
  - now left.
  - right. eexists. split; reflexivity.
Qed.

Lemma chunks_without_term pages chunk_size :
  Forall (fun f => analyze f = [])
         (split_into_chunks (extract_text_from_pdf pages) chunk_size)
  <-> Forall (fun page => analyze page = []) pages.
Proof.
  rewrite <- !concat_map_nil.
  rewrite analyze_chunks, analyze_extract_text, flat_map_concat_map.
  reflexivity.
Qed.

(** X16: [main] fails on a document without a term: when no page holds a
    run of two word characters or more (no page at all, empty pages, pages
    of punctuation or of single letters), creating the vector store raises,
    whatever the question; with a term on some page it does not, and the
    path raises nothing else. *)
Theorem main_fails_iff_no_term pages question :
  (main_relevant_chunks pages question = Raised EmptyCorpus
   <-> Forall (fun page => analyze page = []) pages)
  /\ (forall e, main_relevant_chunks pages question = Raised e ->
                e = EmptyCorpus).
Proof.
  pose proof (main_relevant_chunks_cases pages question) as Hcases.
  pose proof (chunks_without_term pages default_chunk_size) as Hterm.
  cbv zeta in Hcases.
  destruct (Build_cases (split_into_chunks (extract_text_from_pdf pages)
                                           default_chunk_size)) as [HR _].
  destruct Hcases as [[HB Hm]|(index & HB & Hm)].
  - split.
    + split; [intros _; now apply Hterm, HR|intros _; exact Hm].
    + intros e He. rewrite Hm in He. now injection He.
  - destruct (Query_built _ index question default_k HB) as (sims & _ & _ & HQ).
    rewrite HQ in Hm. split.
    + split.
      * intros H. rewrite Hm in H. discriminate.
      * intros H. apply Hterm, HR in H. rewrite HB in H. discriminate.
    + intros e He. rewrite Hm in He. discriminate.
Qed.

(** X17: on a document with a term, [main] retrieves for every question
    the three chunks that [Query] ranks first, or all the chunks when the
    document has fewer than three; each is a chunk of the text of the
    pages, so has at most 1000 characters unless it is one longer word. *)
Theorem main_retrieves_three pages question :
  Exists (fun page => analyze page <> []) pages ->
  let text := extract_text_from_pdf pages in
  let chunks := split_into_chunks text default_chunk_size in
  exists out,
    main_relevant_chunks pages question = Returned out
    /\ len out = Z.min 3 (len chunks)
    /\ incl out chunks
    /\ Forall (within text default_chunk_size) out.
Proof.
  intros Hex text chunks.
  pose proof (main_relevant_chunks_cases pages question) as Hcases.
  cbv zeta in Hcases. fold text chunks in Hcases.
  destruct Hcases as [[HB _]|(index & HB & Hm)].
  - exfalso. apply (Build_cases chunks) in HB.
    apply (chunks_without_term pages default_chunk_size) in HB.
    apply Exists_exists in Hex as (page & Hp & Hne).
    rewrite Forall_forall in HB. now apply Hne, HB.
  - destruct (Query_built_count chunks index question default_k HB)
      as (out & HQ & Hlen & Hincl); [reflexivity|].
    exists out. rewrite Hm. repeat split; try assumption.
    pose proof (split_into_chunks_within text default_chunk_size) as Hw.
    rewrite Forall_forall in Hw |- *. intros f Hf.
    apply Hw; [discriminate|]. now apply Hincl.
Qed.

Lemma main_retrieves_three_witness :
  Exists (fun page => analyze page <> [])
         [lit "data protection"; lit "privacy survey"]
  /\ exists out,
       main_relevant_chunks [lit "data protection"; lit "privacy survey"]
                            (lit "privacy") = Returned out
       /\ len out
          = Z.min 3 (len (split_into_chunks
                            (extract_text_from_pdf
                               [lit "data protection"; lit "privacy survey"])
                            default_chunk_size))
       /\ incl out (split_into_chunks
                      (extract_text_from_pdf
                         [lit "data protection"; lit "privacy survey"])
                      default_chunk_size)
       /\ Forall (within (extract_text_from_pdf
                            [lit "data protection"; lit "privacy survey"])
                         default_chunk_size) out.
Proof.
  assert (H : Exists (fun page => analyze page <> [])
                     [lit "data protection"; lit "privacy survey"]).
  { left. vm_compute. discriminate. }
  split; [exact H|].
  exact (main_retrieves_three [lit "data protection"; lit "privacy survey"]
           (lit "privacy") H).
Defined.

(** ** The product assistant *)

Lemma str_eqb_eq a b : str_eqb a b = true <-> a = b.
Proof.
  unfold str_eqb. destruct (str_eq_dec a b); split; congruence.
Qed.

Lemma dict_get_missing {V : Type} (d : dict V) key default :
  ~ In key (map fst d) -> dict_get d key default = default.
Proof.
  induction d as [|[k v] d IH]; simpl; intros Hkey; [reflexivity|].
  destruct (str_eqb k key) eqn:E.
  - apply str_eqb_eq in E. exfalso. apply Hkey. now left.
  - apply IH. intros H. apply Hkey. now right.
Qed.

Lemma in_join_head sep x t c : In c x -> In c (join sep (x :: t)).
Proof.
  intros Hc. destruct t as [|y t]; [exact Hc|].
  change (join sep (x :: y :: t)) with (x ++ sep ++ join sep (y :: t)).
  apply in_or_app. now left.
Qed.

Lemma infix_refl x : infix x x.
Proof. exists [], []. now rewrite app_nil_r. Qed.

Lemma infix_app x a y b : infix x y -> infix x (a ++ y ++ b).
Proof.
  intros (u & v & ->). exists (a ++ u), (v ++ b).
  now rewrite <- !app_assoc.
Qed.

Lemma infix_join sep x l : In x l -> infix x (join sep l).
Proof.
  induction l as [|y [|z l] IH]; intros Hx.
  - contradiction.
  - destruct Hx as [<-|[]]. apply infix_refl.
  - change (join sep (y :: z :: l)) with (y ++ sep ++ join sep (z :: l)).
    destruct Hx as [<-|Hx].
    + exists [], (sep ++ join sep (z :: l)). reflexivity.
    + destruct (IH Hx) as (u & v & E). rewrite E.
      exists (y ++ sep ++ u), v. now rewrite <- !app_assoc.
Qed.

(** X18: the text "Product not found" stands for the empty dictionary and
    for nothing else: the formatted text of a dictionary with an entry has
    a colon, which that text has not. *)
Theorem format_specs_not_found_iff_empty specs :
  format_specs_as_string specs = lit "Product not found" <-> specs = [].
Proof.
  split; [|now intros ->].
  destruct specs as [|e specs]; [reflexivity|]. intros H. exfalso.
  assert (Hc : In ":"%char (format_specs_as_string (e :: specs))).
  { unfold format_specs_as_string.
    change (map spec_line (e :: specs))
      with (spec_line e :: map spec_line specs).
    apply in_join_head. unfold spec_line. apply in_or_app. right.
    now left. }
  rewrite H in Hc. vm_compute in Hc.
  repeat (destruct Hc as [Hc|Hc]; [discriminate Hc|]). exact Hc.
Qed.

(** X19: for a product identifier that the database does not hold,
    [answer_question] returns the sentence that names the identifier, and
    the model is not part of the answer: it is the same whatever
    [invoke_bedrock] would return or raise. *)
Theorem unknown_product_not_sent invoke_bedrock product_id user_question :
  ~ In product_id (map fst PRODUCT_DATABASE) ->
  answer_question invoke_bedrock product_id user_question
  = Returned (lit "I couldn't find any information about product "
              ++ product_id ++ lit ".").
Proof.
  intros Hid. unfold answer_question, get_product_specs.
  now rewrite (dict_get_missing PRODUCT_DATABASE product_id [] Hid).
Qed.

Lemma unknown_product_not_sent_witness :
  ~ In (lit "x123") (map fst PRODUCT_DATABASE)
  /\ answer_question (fun _ => Raised ValueError) (lit "x123")
                     (lit "How much RAM?")
     = Returned (lit "I couldn't find any information about product x123.").
Proof.
  assert (H : ~ In (lit "x123") (map fst PRODUCT_DATABASE)).
  { vm_compute. intros H.
    repeat (destruct H as [H|H]; [discriminate H|]). exact H. }
  split; [exact H|].
  exact (unknown_product_not_sent (fun _ => Raised ValueError) (lit "x123")
           (lit "How much RAM?") H).
Defined.

Lemma generate_prompt_holds_specs product_specs user_question :
  infix product_specs (generate_prompt product_specs user_question).
Proof.
  unfold generate_prompt.
  exists (lit "You are a helpful product support assistant. " ++ [newline]
          ++ lit "The user is asking about a product with the following specifications:"
          ++ [newline]).
  eexists. rewrite <- !app_assoc. reflexivity.
Qed.

Lemma generate_prompt_holds_question product_specs user_question :
  infix user_question (generate_prompt product_specs user_question).
Proof.
  unfold generate_prompt.
  exists (lit "You are a helpful product support assistant. " ++ [newline]
          ++ lit "The user is asking about a product with the following specifications:"
          ++ [newline] ++ product_specs ++ [newline] ++ [newline]
          ++ lit "User's question: '").
  eexists. rewrite <- !app_assoc. reflexivity.
Qed.

Lemma infix_trans x y z : infix x y -> infix y z -> infix x z.
Proof. intros Hxy (a & b & ->). now apply infix_app. Qed.

(** X20: for a product with specifications, the answer of
    [answer_question] is what [invoke_bedrock] gives for one prompt, and
    that prompt holds a line "key: value" for every entry of the
    specifications, and the question; the text "Product not found" of
    [format_specs_as_string] is never what is sent as specifications. *)
Theorem known_product_prompt product_id user_question entry specs :
  get_product_specs product_id = entry :: specs ->
  let prompt :=
    generate_prompt (join [newline] (map spec_line (entry :: specs)))
                    user_question in
  (forall invoke_bedrock,
     answer_question invoke_bedrock product_id user_question
     = invoke_bedrock prompt)
  /\ (forall e, In e (entry :: specs) -> infix (spec_line e) prompt)
  /\ infix user_question prompt.
Proof.
  intros Hspecs prompt. split; [|split].
  - intros invoke_bedrock. unfold answer_question. now rewrite Hspecs.
  - intros e He. unfold prompt.
    apply (infix_trans _ (join [newline] (map spec_line (entry :: specs)))).
    + apply infix_join. now apply in_map.
    + apply generate_prompt_holds_specs.
  - apply generate_prompt_holds_question.
Qed.

Lemma known_product_prompt_witness :
  get_product_specs (lit "Y456")
  = (lit "Model", lit "Y456")
    :: tl (dict_get PRODUCT_DATABASE (lit "Y456") [])
  /\ (forall invoke_bedrock,
        answer_question invoke_bedrock (lit "Y456") (lit "How much RAM?")
        = invoke_bedrock
            (generate_prompt
               (join [newline]
                     (map spec_line
                          ((lit "Model", lit "Y456")
                           :: tl (dict_get PRODUCT_DATABASE (lit "Y456") []))))
               (lit "How much RAM?")))
  /\ (forall e,
        In e ((lit "Model", lit "Y456")
              :: tl (dict_get PRODUCT_DATABASE (lit "Y456") [])) ->
        infix (spec_line e)
              (generate_prompt
                 (join [newline]
                       (map spec_line
                            ((lit "Model", lit "Y456")
                             :: tl (dict_get PRODUCT_DATABASE (lit "Y456") []))))
                 (lit "How much RAM?")))
  /\ infix (lit "How much RAM?")
           (generate_prompt
              (join [newline]
                    (map spec_line
                         ((lit "Model", lit "Y456")
                          :: tl (dict_get PRODUCT_DATABASE (lit "Y456") []))))
              (lit "How much RAM?")).
Proof.
  split; [reflexivity|].
  exact (known_product_prompt (lit "Y456") (lit "How much RAM?")
           (lit "Model", lit "Y456")
           (tl (dict_get PRODUCT_DATABASE (lit "Y456") [])) eq_refl).
Defined.

Lemma fields_join_tokens sep c l :
  sep c = true -> Forall (token sep) l -> fields sep (join [c] l) = l.
Proof.
  intros Hc. induction 1 as [|x l Hx Hl IH]; [reflexivity|].
  destruct l as [|y l].
  - now apply fields_token.
  - change (join [c] (x :: y :: l)) with (x ++ c :: join [c] (y :: l)).
    rewrite (fields_app_sep sep x c _ Hc), IH.
    now rewrite (fields_token sep x Hx).
Qed.

Lemma no_newline_free (x : str) :
  ~ In newline x -> forallb (fun c => negb (is_newline c)) x = true.
Proof.
  intros Hx. apply forallb_forall. intros c Hc.
  apply negb_true_iff. unfold is_newline. apply Ascii.eqb_neq.
  intros ->. contradiction.
Qed.

Lemma spec_line_token (e : str * str) :
  ~ In newline (fst e) -> ~ In newline (snd e) ->
  token is_newline (spec_line e).
Proof.
  intros Hk Hv. unfold spec_line. split.
  - intros H. apply app_eq_nil in H as [_ H]. discriminate.
  - rewrite !forallb_app.
    pose proof (no_newline_free _ Hk) as H1.
    pose proof (no_newline_free _ Hv) as H2.
    rewrite H1, H2. reflexivity.
Qed.

(** X21: the formatted specifications can be read back: when no key and no
    value holds a line feed, the lines of the text that
    [format_specs_as_string] gives for a dictionary with an entry are the
    lines "key: value" of its entries, one for each entry, in the order of
    the dictionary. *)
Theorem format_specs_lines specs :
  specs <> [] ->
  Forall (fun e => ~ In newline (fst e) /\ ~ In newline (snd e)) specs ->
  lines (format_specs_as_string specs) = map spec_line specs.
Proof.
  intros Hne Hspecs. destruct specs as [|e specs]; [contradiction|].
  unfold format_specs_as_string, lines.
  apply fields_join_tokens; [reflexivity|].
  apply Forall_map. eapply Forall_impl; [|exact Hspecs].
  intros x [Hk Hv]. now apply spec_line_token.
Qed.

Lemma format_specs_lines_witness :
  get_product_specs (lit "Z789") <> []
  /\ Forall (fun e => ~ In newline (fst e) /\ ~ In newline (snd e))
            (get_product_specs (lit "Z789"))
  /\ lines (format_specs_as_string (get_product_specs (lit "Z789")))
     = map spec_line (get_product_specs (lit "Z789")).
Proof.
  assert (Hne : get_product_specs (lit "Z789") <> [])
    by (vm_compute; discriminate).
  assert (Hnl : Forall (fun e => ~ In newline (fst e) /\ ~ In newline (snd e))
                       (get_product_specs (lit "Z789"))).
  { vm_compute.
    repeat (constructor;
            [split; intros H;
             repeat (destruct H as [H|H]; [discriminate H|]); exact H|]).
    constructor. }
  split; [exact Hne|]. split; [exact Hnl|].
  exact (format_specs_lines (get_product_specs (lit "Z789")) Hne Hnl).
Defined.
